(** * detect.py: the command-line detection driver

    A shallow embedding of [load_names] and [overlay_boxes] of
    [detect.py], together with the part of the Python run time they rely
    on: text files, [str.strip], [%]-formatting of numbers, [pathlib]
    paths, list indexing, and the [cv2] calls that read and write images.

    Effects are modelled by a state-and-exception monad over a [world]
    made of a file system and the standard output.  Exceptions leave the
    world as it was when they were raised: nothing is rolled back. *)

From Stdlib Require Import ZArith QArith Qabs String Ascii List Sorted Bool Lia.
From stdpp Require Import base option list gmap strings.

Local Open Scope string_scope.
Local Open Scope Z_scope.

(** ** Python exceptions and the effect monad *)

Module Py.

Inductive exn : Type :=
| FileNotFoundError
| IsADirectoryError
| PermissionError
| UnicodeDecodeError
| IndexError
| ZeroDivisionError
| UnboundLocalError
| Cv2Error.

Inductive result (A : Type) : Type :=
| Ok (a : A)
| Raise (e : exn).
Arguments Ok {A} a.
Arguments Raise {A} e.

Definition is_ok {A} (r : result A) : bool :=
  match r with Ok _ => true | Raise _ => false end.

End Py.
Import Py.

(** ** Text: [str] values, universal newlines, lines and [strip] *)

Module Text.

Definition LF : ascii := "010"%char.
Definition CR : ascii := "013"%char.

(** [str.isspace] on one character.  Characters are the code points below
    256; these are the ones Python's Unicode database marks as white
    space in that range. *)
Definition isspace (c : ascii) : bool :=
  let n := N_of_ascii c in
  ((9 <=? n) && (n <=? 13) || (28 <=? n) && (n <=? 32)
   || (n =? 133) || (n =? 160))%N.

(** [s.lstrip()] *)
Fixpoint lstrip (s : string) : string :=
  match s with
  | EmptyString => EmptyString
  | String c r => if isspace c then lstrip r else s
  end.

(** [s.rstrip()] *)
Fixpoint rstrip (s : string) : string :=
  match s with
  | EmptyString => EmptyString
  | String c r =>
      match rstrip r with
      | EmptyString => if isspace c then EmptyString else String c EmptyString
      | r' => String c r'
      end
  end.

(** [s.strip()] *)
Definition strip (s : string) : string := rstrip (lstrip s).

(** What a file opened in text mode with the default [newline=None] hands
    out: every ["\r\n"] and every lone ["\r"] is read as ["\n"]. *)
Fixpoint universal_newlines (s : string) : string :=
  match s with
  | EmptyString => EmptyString
  | String c r =>
      if Ascii.eqb c CR then
        match r with
        | String c' r' =>
            if Ascii.eqb c' LF then String LF (universal_newlines r')
            else String LF (universal_newlines r)
        | EmptyString => String LF EmptyString
        end
      else String c (universal_newlines r)
  end.

(** The lines a text file yields when iterated: each keeps its final
    ["\n"]; the last one has none when the text does not end in one. *)
Fixpoint lines (s : string) : list string :=
  match s with
  | EmptyString => []
  | String c r =>
      if Ascii.eqb c LF then String c EmptyString :: lines r
      else match lines r with
           | [] => [String c EmptyString]
           | l :: ls => String c l :: ls
           end
  end.

(** The number of occurrences of ["\n"] in a text. *)
Fixpoint count_newlines (s : string) : nat :=
  match s with
  | EmptyString => O
  | String c r => ((if Ascii.eqb c LF then 1 else 0) + count_newlines r)%nat
  end.

(** [''.join(ls)] *)
Definition join (ls : list string) : string :=
  fold_right String.append EmptyString ls.

(** The text of a line without its line terminator. *)
Definition line_body (l : string) : string :=
  match String.length l with
  | O => l
  | S n => match String.get n l with
           | Some c => if Ascii.eqb c LF then String.substring 0 n l else l
           | None => l
           end
  end.

End Text.

(** ** Numbers: rounding and [%]-formatting

    Tensor entries and Python floats are modelled by rationals: every
    finite float is one, and the operations below are exact on them.
    Infinities, NaN and the sign of zero are not represented. *)

Module Num.

(** Round to the nearest integer, ties to the even one ([torch.round],
    and the rounding of [%]-formatting). *)
Definition round_half_even (q : Q) : Z :=
  let n := Qnum q in
  let d := Zpos (Qden q) in
  let f := n / d in
  let r2 := 2 * (n mod d) in
  if r2 <? d then f
  else if d <? r2 then f + 1
  else if Z.even f then f else f + 1.

Definition digit_char (d : Z) : ascii :=
  ascii_of_N (48 + Z.to_N d).

Fixpoint decimal_go (fuel : nat) (n : Z) (acc : string) : string :=
  match fuel with
  | O => acc
  | S f =>
      let acc' := String (digit_char (n mod 10)) acc in
      if n / 10 =? 0 then acc' else decimal_go f (n / 10) acc'
  end.

(** The decimal digits of a natural number, without leading zeros. *)
Definition decimal (n : Z) : string :=
  decimal_go (S (Z.to_nat (Z.log2 n))) n EmptyString.

Fixpoint zeros (k : nat) : string :=
  match k with O => EmptyString | S k' => String "0"%char (zeros k') end.

Definition pad_left (width : nat) (s : string) : string :=
  zeros (width - String.length s) ++ s.

(** ['%.<prec>f' % q] *)
Definition fmt_f (prec : nat) (q : Q) : string :=
  let scale := 10 ^ Z.of_nat prec in
  let m := round_half_even (Qabs q * inject_Z scale) in
  (if Qnum q <? 0 then "-" else "")
  ++ decimal (m / scale)
  ++ match prec with
     | O => ""
     | S _ => "." ++ pad_left prec (decimal (m mod scale))
     end.

(** [n / d * 10 ^ k] *)
Definition scale10 (n d k : Z) : Q :=
  if 0 <=? k then Qmake (n * 10 ^ k) (Z.to_pos d)
  else Qmake n (Z.to_pos (d * 10 ^ (- k))).

Fixpoint small_exponent (fuel : nat) (n d k : Z) : Z :=
  match fuel with
  | O => k
  | S f => if d <=? n * 10 then k - 1 else small_exponent f (n * 10) d (k - 1)
  end.

(** The decimal exponent [floor (log10 (n / d))] of a positive rational. *)
Definition dec_exponent (n d : Z) : Z :=
  if d <=? n then Z.of_nat (String.length (decimal (n / d))) - 1
  else small_exponent (S (Z.to_nat (Z.log2 d))) n d 0.

Fixpoint strip_zeros_r (s : string) : string :=
  match s with
  | EmptyString => EmptyString
  | String c r =>
      match strip_zeros_r r with
      | EmptyString => if Ascii.eqb c "0" then EmptyString else String c EmptyString
      | r' => String c r'
      end
  end.

(** Positional notation for the digits [ds] with the decimal point after
    the first [decpt] of them. *)
Definition g_fixed (ds : string) (decpt : Z) : string :=
  let len := Z.of_nat (String.length ds) in
  if decpt <=? 0 then "0." ++ zeros (Z.to_nat (- decpt)) ++ ds
  else if len <=? decpt then ds ++ zeros (Z.to_nat (decpt - len))
  else String.substring 0 (Z.to_nat decpt) ds ++ "."
       ++ String.substring (Z.to_nat decpt) (Z.to_nat (len - decpt)) ds.

(** Exponent notation: one digit, the others after the point, and an
    exponent of at least two digits. *)
Definition g_sci (ds : string) (x : Z) : string :=
  match ds with
  | EmptyString => EmptyString
  | String c r =>
      String c (match r with EmptyString => "" | _ => "." ++ r end)
      ++ "e" ++ (if x <? 0 then "-" else "+") ++ pad_left 2 (decimal (Z.abs x))
  end.

(** ['%g' % q]: six significant digits, trailing zeros removed, exponent
    notation when the decimal exponent is below -4 or at least 6. *)
Definition fmt_g (q : Q) : string :=
  let n := Z.abs (Qnum q) in
  let d := Zpos (Qden q) in
  if n =? 0 then "0"
  else
    let x0 := dec_exponent n d in
    let m0 := round_half_even (scale10 n d (5 - x0)) in
    let m := if m0 =? 1000000 then 100000 else m0 in
    let x := if m0 =? 1000000 then x0 + 1 else x0 in
    let ds := strip_zeros_r (decimal m) in
    (if Qnum q <? 0 then "-" else "")
    ++ (if (x <? -4) || (6 <=? x) then g_sci ds x else g_fixed ds (x + 1)).

End Num.

Import Num.

(** ** Paths: the part of [pathlib] the driver uses (POSIX flavour) *)

Module Pathlib.

(** A parsed path: its root (empty, ["/"] or ["//"]) and its components. *)
Record Path : Type := mkPath { root : string; parts : list string }.

Definition slash : ascii := "/"%char.
Definition dot : ascii := "."%char.

(** [s.split('/')] *)
Fixpoint split_slash (s : string) : list string :=
  match s with
  | EmptyString => [EmptyString]
  | String c r =>
      if Ascii.eqb c slash then EmptyString :: split_slash r
      else match split_slash r with
           | [] => [String c EmptyString]
           | p :: ps => String c p :: ps
           end
  end.

(** Exactly two leading slashes are kept as they are; one, or three and
    more, stand for the root. *)
Definition root_of (s : string) : string :=
  match s with
  | String a (String b (String c _)) =>
      if Ascii.eqb a slash then
        if Ascii.eqb b slash then (if Ascii.eqb c slash then "/" else "//")
        else "/"
      else ""
  | String a (String b EmptyString) =>
      if Ascii.eqb a slash then (if Ascii.eqb b slash then "//" else "/")
      else ""
  | String a EmptyString => if Ascii.eqb a slash then "/" else ""
  | EmptyString => ""
  end.

(** Empty components and ["."] are dropped when a path is parsed. *)
Definition keep_part (p : string) : bool :=
  negb (String.eqb p "") && negb (String.eqb p ".").

(** [Path(s)] *)
Definition parse (s : string) : Path :=
  {| root := root_of s; parts := filter (fun p => Is_true (keep_part p)) (split_slash s) |}.

(** ['/'.join(ps)] *)
Fixpoint join_slash (ps : list string) : string :=
  match ps with
  | [] => ""
  | [p] => p
  | p :: ps' => p ++ "/" ++ join_slash ps'
  end.

(** [str(p)] *)
Definition str (p : Path) : string :=
  match root p, parts p with
  | EmptyString, [] => "."
  | r, ps => r ++ join_slash ps
  end.

(** [p.name]: the last component, or the empty string. *)
Definition name (p : Path) : string := List.last (parts p) "".

(** [s.rfind('.')] *)
Fixpoint rfind_dot (s : string) : option nat :=
  match s with
  | EmptyString => None
  | String c r =>
      match rfind_dot r with
      | Some i => Some (S i)
      | None => if Ascii.eqb c dot then Some O else None
      end
  end.

(** [p.stem]: the name without its last suffix.  A dot at the start or
    at the end of the name does not start a suffix. *)
Definition stem (p : Path) : string :=
  let n := name p in
  match rfind_dot n with
  | Some i =>
      if (0 <? i)%nat && (i <? String.length n - 1)%nat
      then String.substring 0 i n else n
  | None => n
  end.

(** [p.joinpath(s)]: a rooted argument replaces [p]. *)
Definition joinpath (p : Path) (s : string) : Path :=
  let q := parse s in
  match root q with
  | EmptyString => {| root := root p; parts := parts p ++ parts q |}
  | _ => q
  end.

(** [p.parent] *)
Definition parent (p : Path) : Path :=
  {| root := root p; parts := removelast (parts p) |}.

End Pathlib.

Import Pathlib.

(** ** Tensors: boxes, scores and labels of one image *)

Module Tensor.

(** A row of the [boxes] tensor, in corner format.  The entries are
    32-bit floats; they are taken as the rationals they stand for, and the
    arithmetic below is exact.  This is what [torch] computes as long as
    no result has to be rounded to 24 bits and no zero carries a minus
    sign: [in_float_range] below names a range where it is so. *)
Record box : Type := mkBox { bx1 : Q; by1 : Q; bx2 : Q; by2 : Q }.

(** [t.round()] on one entry: the result is still a float. *)
Definition round_entry (q : Q) : Q := inject_Z (round_half_even q).

(** [boxes.round()] on one row. *)
Definition round_box (b : box) : box :=
  {| bx1 := round_entry (bx1 b); by1 := round_entry (by1 b);
     bx2 := round_entry (bx2 b); by2 := round_entry (by2 b) |}.

(** [box_convert(b, in_fmt="xyxy", out_fmt="cxcywh").tolist()]: the
    centre is the midpoint of the corners, the size their difference. *)
Definition box_convert_xyxy_cxcywh (b : box) : list Q :=
  [ (bx1 b + bx2 b) / 2; (by1 b + by2 b) / 2; bx2 b - bx1 b; by2 b - by1 b ]%Q.

(** [row.tolist()] *)
Definition box_tolist (b : box) : list Q := [bx1 b; by1 b; bx2 b; by2 b].

Fixpoint insert_sorted (c : Z) (l : list Z) : list Z :=
  match l with
  | [] => [c]
  | x :: r =>
      if c <? x then c :: l
      else if c =? x then l
      else x :: insert_sorted c r
  end.

(** [labels.unique()]: the distinct values, in increasing order. *)
Definition unique (labels : list Z) : list Z :=
  fold_right insert_sorted [] labels.

(** [(labels == c).sum()] *)
Definition count_eq (c : Z) (labels : list Z) : Z :=
  Z.of_nat (length (List.filter (Z.eqb c) labels)).

(** [zip(a, b, c)]: stops with the shortest argument. *)
Fixpoint zip3 {A B C} (a : list A) (b : list B) (c : list C) : list (A * B * C) :=
  match a, b, c with
  | x :: a', y :: b', z :: c' => (x, y, z) :: zip3 a' b' c'
  | _, _, _ => []
  end.

End Tensor.

Import Tensor.

(** ** The world: files and standard output *)

Module World.

(** One thing [plot_one_box] has drawn on an image. *)
Record overlay : Type := mkOverlay
  { ov_box : box; ov_label : string; ov_color : list Z; ov_thickness : Z }.

(** A decoded image: the pixels it was read with (left opaque) and what
    has been drawn on it since, oldest first. *)
Record image : Type := mkImage { im_pixels : string; im_drawn : list overlay }.

(** What a regular file holds: text, or an encoded image followed by the
    text that was appended to it. *)
Inductive data : Type :=
| Text (s : string)
| Picture (im : image) (trailer : string).

Record perm : Type := mkPerm { can_read : bool; can_write : bool }.

Definition rw : perm := {| can_read := true; can_write := true |}.

Inductive node : Type :=
| Dir
| File (p : perm) (d : data).

(** Files and directories are looked up by the path string they were
    opened with.  [open] does not look at the directories on the way to a
    file; [cv2.imwrite] looks at the directory it is to write into.
    Directories carry no permissions: one that is there can be written
    into. *)
Record world : Type := mkWorld
  { fs : gmap string node; stdout : list string }.

(** The effect monad of the script: a computation changes the world and
    returns or raises. *)
Definition M (A : Type) : Type := world -> world * result A.

Definition ret {A} (a : A) : M A := fun w => (w, Ok a).

Definition raise {A} (e : exn) : M A := fun w => (w, Raise e).

Definition bind {A B} (m : M A) (k : A -> M B) : M B :=
  fun w =>
    match m w with
    | (w', Ok a) => k a w'
    | (w', Raise e) => (w', Raise e)
    end.

(** A computation without effect on the world. *)
Definition lift {A} (r : result A) : M A := fun w => (w, r).

Notation "x <- m ;; k" := (bind m (fun x => k))
  (at level 100, m at next level, right associativity).
Notation "m ;;; k" := (bind m (fun _ => k))
  (at level 100, right associativity).

(** A [for] loop that threads the variables it assigns. *)
Fixpoint foldM {A B} (body : A -> B -> M A) (a : A) (l : list B) : M A :=
  match l with
  | [] => ret a
  | x :: r => a' <- body a x ;; foldM body a' r
  end.

(** [open(path, 'r')]: the handle gives access to what the file holds. *)
Definition open_r (path : string) : M data :=
  fun w =>
    match fs w !! path with
    | None => (w, Raise FileNotFoundError)
    | Some Dir => (w, Raise IsADirectoryError)
    | Some (File p d) =>
        if can_read p then (w, Ok d) else (w, Raise PermissionError)
    end.

(** [for line in f]: all the lines of the file; data that is not text
    does not decode. *)
Definition read_lines (f : data) : M (list string) :=
  match f with
  | Text s => ret (Text.lines (Text.universal_newlines s))
  | Picture _ _ => raise UnicodeDecodeError
  end.

Definition data_append (d : data) (s : string) : data :=
  match d with
  | Text t => Text (t ++ s)
  | Picture im t => Picture im (t ++ s)
  end.

(** [with open(path, 'a') as f: f.write(s)]: the file is created when it
    does not exist, and [s] goes after what it holds. *)
Definition append_text (path : string) (s : string) : M unit :=
  fun w =>
    match fs w !! path with
    | None =>
        ({| fs := <[path := File rw (Text s)]> (fs w); stdout := stdout w |}, Ok tt)
    | Some Dir => (w, Raise IsADirectoryError)
    | Some (File p d) =>
        if can_write p then
          ({| fs := <[path := File p (data_append d s)]> (fs w); stdout := stdout w |}, Ok tt)
        else (w, Raise PermissionError)
    end.

(** [print(s)] *)
Definition print (s : string) : M unit :=
  fun w => ({| fs := fs w; stdout := stdout w ++ [s] |}, Ok tt).

(** [cv2.imread(path)]: [None] when there is no readable image there. *)
Definition imread (path : string) : M (option image) :=
  fun w =>
    match fs w !! path with
    | Some (File p (Picture im _)) =>
        if can_read p then (w, Ok (Some im)) else (w, Ok None)
    | _ => (w, Ok None)
    end.

Definition lower (c : ascii) : ascii :=
  let n := N_of_ascii c in
  if ((65 <=? n) && (n <=? 90))%N then ascii_of_N (n + 32) else c.

Fixpoint lowercase (s : string) : string :=
  match s with
  | EmptyString => EmptyString
  | String c r => String (lower c) (lowercase r)
  end.

Definition isalnum (c : ascii) : bool :=
  let n := N_of_ascii c in
  ((48 <=? n) && (n <=? 57) || (65 <=? n) && (n <=? 90)
   || (97 <=? n) && (n <=? 122))%N.

Fixpoint alnum_prefix (s : string) : string :=
  match s with
  | EmptyString => EmptyString
  | String c r => if isalnum c then String c (alnum_prefix r) else EmptyString
  end.

(** The extension [cv2] chooses an encoder by: the letters and digits
    that follow the last dot of the path, in lower case. *)
Definition extension (path : string) : string :=
  match rfind_dot path with
  | Some i =>
      lowercase (alnum_prefix
                   (String.substring (S i) (String.length path - S i) path))
  | None => ""
  end.

(** The extensions for which [cv2.imwrite] finds an encoder. *)
Definition encoder_extensions : list string :=
  ["bmp"; "dib"; "jpeg"; "jpg"; "jpe"; "jp2"; "png"; "webp"; "avif"; "gif";
   "pbm"; "pgm"; "ppm"; "pnm"; "pfm"; "sr"; "ras";
   "tiff"; "tif"; "hdr"; "pic"].

Definition has_encoder (path : string) : bool :=
  existsb (String.eqb (extension path)) encoder_extensions.

(** The extensions whose encoder takes images of one channel only. *)
Definition grey_extensions : list string := ["pbm"; "pgm"].

(** The encoder for the path takes an image of three channels, which is
    what [cv2.imread] returns. *)
Definition takes_colour (path : string) : bool :=
  negb (existsb (String.eqb (extension path)) grey_extensions).

(** The directory the path lies in is there: the current directory or
    the root for a path of one component, otherwise a directory of the
    file system. *)
Definition dir_exists (w : world) (path : string) : bool :=
  let d := parent (parse path) in
  match parts d with
  | [] => true
  | _ => match fs w !! str d with
         | Some Dir => true
         | _ => false
         end
  end.

(** [cv2.imwrite(path, img)]: raises when there is no image or no encoder
    for the extension; returns [False], writing nothing, when the encoder
    refuses the image, when the directory is missing or when the file
    cannot be written; otherwise the file holds the image. *)
Definition imwrite (path : string) (img : option image) : M bool :=
  fun w =>
    match img with
    | None => (w, Raise Cv2Error)
    | Some im =>
        if has_encoder path then
          if takes_colour path && dir_exists w path then
            match fs w !! path with
            | Some Dir => (w, Ok false)
            | Some (File p _) =>
                if can_write p then
                  ({| fs := <[path := File p (Picture im "")]> (fs w); stdout := stdout w |}, Ok true)
                else (w, Ok false)
            | None =>
                ({| fs := <[path := File rw (Picture im "")]> (fs w); stdout := stdout w |}, Ok true)
            end
          else (w, Ok false)
        else (w, Raise Cv2Error)
    end.

(** Modelled from the spec: [plot_one_box] of [utils/image_utils.py] is
    not part of the sources at hand; the overlay step is said to "draw the
    box and label onto the image".  Drawing on no image raises. *)
Definition plot_one_box (xyxy : box) (img : option image) (label : string)
    (color : list Z) (line_thickness : Z) : M (option image) :=
  match img with
  | None => raise Cv2Error
  | Some im =>
      ret (Some {| im_pixels := im_pixels im;
                   im_drawn := im_drawn im ++
                     [{| ov_box := xyxy; ov_label := label; ov_color := color;
                         ov_thickness := line_thickness |}] |})
  end.

End World.

Import World.

(** ** detect.py *)

Module Detect.

(** [l[i]]: a negative index counts from the end; outside the list,
    [IndexError]. *)
Definition py_index {A} (l : list A) (i : Z) : result A :=
  let n := Z.of_nat (length l) in
  let j := if i <? 0 then i + n else i in
  if (0 <=? j) && (j <? n) then
    match l !! Z.to_nat j with
    | Some x => Ok x
    | None => Raise IndexError
    end
  else Raise IndexError.

(** [a % b] on integers: the result has the sign of [b]. *)
Definition py_mod (a b : Z) : result Z :=
  if b =? 0 then Raise ZeroDivisionError else Ok (a mod b).

(** [load_names(category_path)] *)
Definition load_names (category_path : string) : M (list string) :=
  f <- open_r category_path ;;
  ls <- read_lines f ;;
  ret (fold_left (fun names line => (names ++ [Text.strip line])%list) ls []).

(** The attributes of [args] that [overlay_boxes] reads. *)
Record Args : Type := mkArgs
  { output_dir : string;
    save_txt : bool;
    save_img : bool;
    names : list string;
    colors : list (list Z) }.

(** The ['boxes'], ['scores'] and ['labels'] entries of a prediction. *)
Record detections : Type := mkDet
  { boxes : list box; scores : list Q; labels : list Z }.

(** One element of the list the model returns. *)
Inductive prediction : Type :=
| PyNone
| EmptyDict
| Dict (d : detections).

(** [len(pred)] for a prediction that is not [None]: a dictionary counts
    its keys. *)
Definition pred_len (pred : prediction) : Z :=
  match pred with
  | PyNone => 0
  | EmptyDict => 0
  | Dict _ => 3
  end.

(** [pred is not None and len(pred) > 0] *)
Definition is_nonempty (pred : prediction) : bool :=
  match pred with
  | PyNone => false
  | _ => 0 <? pred_len pred
  end.

(** [det_logs += '%g %ss, ' % (n, args.names[int(c)])] for one class. *)
Definition summary_step (args : Args) (labels : list Z) (det_logs : string) (c : Z)
    : M string :=
  let n := count_eq c labels in
  nm <- lift (py_index (names args) c) ;;
  ret (det_logs ++ fmt_g (inject_Z n) ++ " " ++ nm ++ "s, ").

(** [('%g ' * 5 + '\n') % (cls_name, *cxcywh)] *)
Definition label_line (cls_name : Z) (cxcywh : list Q) : string :=
  Text.join (map (fun v => fmt_g v ++ " ") (inject_Z cls_name :: cxcywh))
  ++ String Text.LF "".

(** [if args.save_txt:] in the loop over the detections: one line is
    appended to the text file. *)
Definition write_label (args : Args) (txt_path : Path) (xyxy : box) (cls_name : Z)
    : M unit :=
  if save_txt args then
    let cxcywh := box_convert_xyxy_cxcywh xyxy in
    append_text (str txt_path ++ ".txt") (label_line cls_name cxcywh)
  else ret tt.

(** [if args.save_img:] in the loop over the detections: the box is drawn
    on the image, in place. *)
Definition draw_box (args : Args) (img : option image) (xyxy : box) (conf : Q)
    (cls_name : Z) : M (option image) :=
  if save_img args then
    nm <- lift (py_index (names args) cls_name) ;;
    let label := nm ++ " " ++ fmt_f 2 conf in
    k <- lift (py_mod cls_name (Z.of_nat (length (colors args)))) ;;
    color <- lift (py_index (colors args) k) ;;
    plot_one_box xyxy img label color 3
  else ret img.

(** The body of the loop over [zip(boxes, scores, labels)].  The image is
    threaded through the loop. *)
Definition detection_step (args : Args) (txt_path : Path) (img : option image)
    (d : box * Q * Z) : M (option image) :=
  let '(xyxy, conf, cls_name) := d in
  write_label args txt_path xyxy cls_name ;;;
  draw_box args img xyxy conf cls_name.

(** The variables that live across the iterations of the loop over
    [detections]: the image, and [boxes], [scores], [labels], which are
    unbound until a prediction binds them. *)
Record loop_vars : Type := mkVars
  { v_img : option image; v_bound : option detections }.

(** The body of the loop over [detections]. *)
Definition prediction_step (args : Args) (path : string) (time_consume : Q)
    (vars : loop_vars) (pred : prediction) : M loop_vars :=
  let save_path := joinpath (parse (output_dir args)) (name (parse path)) in
  let txt_path := joinpath (parse (output_dir args)) (stem (parse path)) in
  r <- (if is_nonempty pred then
          match pred with
          | Dict d =>
              let bound :=
                {| boxes := map round_box (boxes d);
                   scores := scores d; labels := labels d |} in
              det_logs <- foldM (summary_step args (labels bound)) ""
                            (unique (labels bound)) ;;
              img <- foldM (detection_step args txt_path) (v_img vars)
                       (zip3 (boxes bound) (scores bound) (labels bound)) ;;
              ret (det_logs, {| v_img := img; v_bound := Some bound |})
          | _ => ret ("", vars)
          end
        else ret ("", vars)) ;;
  print (fst r ++ "Done. (" ++ fmt_f 3 time_consume ++ "s)") ;;;
  (if save_img args then
     imwrite (str save_path) (v_img (snd r)) ;;; ret tt
   else ret tt) ;;;
  ret (snd r).

(** [overlay_boxes(detections, path, time_consume, args)] *)
Definition overlay_boxes (dets : list prediction) (path : string)
    (time_consume : Q) (args : Args) : M (list (list Q) * list Q * list Z) :=
  img <- (if save_img args then imread path else ret None) ;;
  vars <- foldM (prediction_step args path time_consume)
            {| v_img := img; v_bound := None |} dets ;;
  match v_bound vars with
  | Some b => ret (map box_tolist (boxes b), scores b, labels b)
  | None => raise UnboundLocalError
  end.

End Detect.

Import Detect.

(** ** Vocabulary of the properties *)

Module Props.

(** The text file and the image file a call with [args] and [path] works
    on: [f'{txt_path}.txt'] and [str(save_path)]. *)
Definition txt_file (args : Args) (path : string) : string :=
  str (joinpath (parse (output_dir args)) (stem (parse path))) ++ ".txt".

Definition img_file (args : Args) (path : string) : string :=
  str (joinpath (parse (output_dir args)) (name (parse path))).

(** The text a file holds, or ends with; none when there is no file. *)
Definition tail_text (w : world) (p : string) : string :=
  match fs w !! p with
  | Some (File _ (Text s)) => s
  | Some (File _ (Picture _ t)) => t
  | _ => ""
  end.

(** What appending [s] makes of a path: a new text file, or the old file
    with [s] after what it held. *)
Definition node_append (old : option node) (s : string) : option node :=
  match old with
  | None => Some (File rw (Text s))
  | Some (File pm d) => Some (File pm (data_append d s))
  | Some Dir => Some Dir
  end.

(** [new] is [old] with the text [s] appended by successful writes. *)
Definition appended (old new : option node) (s : string) : Prop :=
  (s = "" /\ new = old) \/ (old <> Some Dir /\ new = node_append old s).

(** The node is a file holding exactly an image. *)
Definition holds_picture (n : option node) : Prop :=
  exists pm im, n = Some (File pm (Picture im "")).

(** The lines a prediction contributes to the text file, in the order of
    its detections. *)
Definition written_lines (pred : prediction) : list string :=
  match pred with
  | Dict d =>
      map (fun '(xyxy, _, cls_name) =>
             label_line cls_name (box_convert_xyxy_cxcywh xyxy))
          (zip3 (map round_box (boxes d)) (scores d) (labels d))
  | _ => []
  end.



(** [r] is [q] rounded to a whole number: [q] is at most one half away
    from it, and when it is just one half away, [r] is even. *)
Definition rounds_to (q : Q) (r : Z) : Prop :=
  (inject_Z r - (1 # 2) <= q <= inject_Z r + (1 # 2))%Q
  /\ ((q == inject_Z r - (1 # 2) \/ q == inject_Z r + (1 # 2))%Q -> Z.even r = true).

(** The text line the interface describes for a detection of class [c]
    whose box has the whole corners [x1], [y1], [x2], [y2]: the class id,
    then the centre, which is the midpoint of the corners, and the size,
    which is their difference, each number followed by a blank. *)
Definition five_numbers (c x1 y1 x2 y2 : Z) : string :=
  fmt_g (inject_Z c) ++ " " ++ fmt_g (x1 + x2 # 2) ++ " "
  ++ fmt_g (y1 + y2 # 2) ++ " " ++ fmt_g (inject_Z (x2 - x1)) ++ " "
  ++ fmt_g (inject_Z (y2 - y1)) ++ " " ++ String Text.LF "".

(** [l] is the line of the detection [d]: the five numbers of its class
    id and of its corners, rounded. *)
Definition line_of (d : box * Q * Z) (l : string) : Prop :=
  let '(xyxy, _, cls_name) := d in
  exists x1 y1 x2 y2 : Z,
    rounds_to (bx1 xyxy) x1 /\ rounds_to (by1 xyxy) y1
    /\ rounds_to (bx2 xyxy) x2 /\ rounds_to (by2 xyxy) y2
    /\ l = five_numbers cls_name x1 y1 x2 y2.

(** The lines of a text that hold something besides their terminator. *)
Definition nonempty_lines (s : string) : list string :=
  List.filter (fun l => negb (String.eqb (Text.line_body l) ""))
    (Text.lines (Text.universal_newlines s)).



(** All a call of [overlay_boxes] may do to the files between two worlds:
    append to the text file when [save_txt] is set, and put an image into
    the image file when [save_img] is set. *)
Definition outputs_only (args : Args) (path : string) (w w' : world) : Prop :=
  forall p,
    fs w' !! p = fs w !! p
    \/ (save_txt args = true /\ p = txt_file args path
        /\ exists s, fs w' !! p = node_append (fs w !! p) s)
    \/ (save_img args = true /\ p = img_file args path
        /\ has_encoder p = true /\ holds_picture (fs w' !! p)).


(** The computation [m] only takes a world to worlds related to it by
    [R], also when it raises. *)
Definition keeps {A} (R : world -> world -> Prop) (m : M A) : Prop :=
  forall w, R w (fst (m w)).

(** What [boxes], [scores] and [labels] are bound to once the loop is over
    [dets], starting from [init]: the rounded boxes, the scores and the
    labels of the last prediction that is not empty. *)
Definition bound_after (init : option detections) (dets : list prediction)
    : option detections :=
  fold_left
    (fun acc pred =>
       match pred with
       | Dict d =>
           Some {| boxes := map round_box (boxes d);
                   scores := scores d; labels := labels d |}
       | _ => acc
       end)
    dets init.

(** The prediction binds nothing: it is [None] or has length 0. *)
Definition empty_pred (pred : prediction) : Prop := is_nonempty pred = false.

End Props.

Import Props.

(** ** Concrete worlds and inputs, to run the definitions on *)

Module Examples.

(** A label map of three lines, the second one blank. *)
Definition names_world : world :=
  {| fs := {[ "coco.names" :=
                File rw (Text ("person" ++ String Text.LF
                               (String Text.LF ("bicycle" ++ String Text.LF "")))) ]};
     stdout := [] |}.

(** An input image and a world that holds it, next to the output
    directory and a text file left there by an earlier run. *)
Definition zidane : image := {| im_pixels := "zidane"; im_drawn := [] |}.

Definition demo_world : world :=
  {| fs := <[ "out/zidane.txt" := File rw (Text ("0 5 5 10 10 " ++ String Text.LF "")) ]>
             (<[ "out" := Dir ]>
                {[ "in/zidane.jpg" := File rw (Picture zidane "") ]});
     stdout := [] |}.

Definition demo_path : string := "in/zidane.jpg".

Definition demo_args : Args :=
  {| output_dir := "./out"; save_txt := true; save_img := true;
     names := ["person"; "tie"]; colors := [[255; 0; 0]] |}.

(** The same call with nothing to save. *)
Definition quiet_args : Args :=
  {| output_dir := "./out"; save_txt := false; save_img := false;
     names := ["person"; "tie"]; colors := [[255; 0; 0]] |}.

(** Three detections: two ties and a person. *)
Definition demo_det : detections :=
  {| boxes := [ {| bx1 := 10.4; by1 := 20.5; bx2 := 30.5; by2 := 41.5 |};
                {| bx1 := 0.2; by1 := 0.3; bx2 := 100; by2 := 200 |};
                {| bx1 := 1; by1 := 1; bx2 := 2; by2 := 2 |} ]%Q;
     scores := [0.875; 0.5; 0.25]%Q;
     labels := [1; 0; 1] |}.

Definition demo_vars : loop_vars := {| v_img := Some zidane; v_bound := None |}.

(** One iteration of the loop over the predictions, run. *)
Definition demo_step : world * result loop_vars :=
  prediction_step demo_args demo_path 0.0421%Q demo_vars (Dict demo_det) demo_world.

Definition demo_world' : world := fst demo_step.

Definition demo_vars' : loop_vars :=
  match snd demo_step with
  | Ok vars => vars
  | Raise _ => demo_vars
  end.

End Examples.

Import Examples.

(** ** detect.py: [main] *)

Module Driver.

(** The options of the command line that [main] itself reads; the others
    go to the detector. *)
Record Cli : Type := mkCli
  { labelmap : string;
    input_source : string;
    cli_output_dir : string;
    cli_save_txt : bool;
    cli_save_img : bool }.

(** What [main] takes from outside this file, as it is: the text that
    [print(args)] shows; the making of the model ([yolov5s], [eval],
    [to(device)]); the successive values of [random.randint(0, 255)];
    the warm-up call of the model; [inference] on the input, which gives
    the predictions and the time it took; and the total time measured
    around it. *)
Record Runtime : Type := mkRuntime
  { show_args : string;
    build_model : M unit;
    randint : nat -> Z;
    warm_up : M unit;
    inference : string -> M (list prediction * Q);
    total_time_consume : Q }.

(** [[[random.randint(0, 255) for _ in range(3)] for _ in range(n)]]:
    three draws per colour, taken in order. *)
Definition make_colors (rand : nat -> Z) (n : nat) : list (list Z) :=
  map (fun i => [rand (3 * i)%nat; rand (3 * i + 1)%nat; rand (3 * i + 2)%nat])
      (seq 0 n).

(** [args] once [main] has set [args.names] and [args.colors]. *)
Definition args_with (cli : Cli) (rand : nat -> Z) (names : list string) : Args :=
  {| output_dir := cli_output_dir cli;
     save_txt := cli_save_txt cli;
     save_img := cli_save_img cli;
     names := names;
     colors := make_colors rand (length names) |}.

(** [main(args)].  [load_names] is given [Path(args.labelmap)], and opens
    the file under the string of that path. *)
Definition main (rt : Runtime) (cli : Cli) : M unit :=
  print (show_args rt) ;;;
  build_model rt ;;;
  names <- load_names (str (parse (labelmap cli))) ;;
  let args := args_with cli (randint rt) names in
  warm_up rt ;;;
  out <- inference rt (input_source cli) ;;
  overlay_boxes (fst out) (input_source cli) (snd out) args ;;;
  (if save_txt args || save_img args
   then print ("Results saved to " ++ output_dir args)
   else ret tt) ;;;
  print ("Total time: (" ++ fmt_f 3 (total_time_consume rt) ++ "s)").

End Driver.

Import Driver.

(** ** Vocabulary of the further properties *)

Module MoreProps.

(** The label has a name: it indexes [args.names], from the front or,
    when negative, from the end. *)
Definition named (args : Args) (c : Z) : Prop :=
  - Z.of_nat (length (names args)) <= c < Z.of_nat (length (names args)).

(** The detections of a prediction as the loop goes through them: the
    rounded box, the score and the label of each. *)
Definition detections_of (pred : prediction) : list (box * Q * Z) :=
  match pred with
  | Dict d => zip3 (map round_box (boxes d)) (scores d) (labels d)
  | _ => []
  end.

(** [ov] is what is drawn for the detection [d]: its box, the name of
    its class and its confidence with two decimals, in the colour found
    at its class id modulo the number of colours, with lines of
    thickness 3. *)
Definition drawn_as (args : Args) (d : box * Q * Z) (ov : overlay) : Prop :=
  let '(xyxy, conf, cls_name) := d in
  ov_box ov = xyxy
  /\ (exists nm, py_index (names args) cls_name = Ok nm
                 /\ ov_label ov = nm ++ " " ++ fmt_f 2 conf)
  /\ colors args !! Z.to_nat (cls_name mod Z.of_nat (length (colors args)))
     = Some (ov_color ov)
  /\ ov_thickness ov = 3.

(** A path at which a file can be written: there is nothing there, or a
    file that may be written to. *)
Definition can_hold (n : option node) : Prop :=
  n = None \/ exists pm d, n = Some (File pm d) /\ can_write pm = true.

(** A path at which [cv2.imwrite] saves an image that [cv2.imread] has
    read: the encoder for its extension takes three channels, its
    directory is there, and the path can hold a file. *)
Definition can_save (w : world) (p : string) : Prop :=
  takes_colour p = true /\ dir_exists w p = true /\ can_hold (fs w !! p).

(** The directories of [w] are still directories in [w']. *)
Definition dirs_stay (w w' : world) : Prop :=
  forall q, fs w !! q = Some Dir -> fs w' !! q = Some Dir.

(** [cv2.imwrite] raises in the loop of a call that saves the image:
    the input could not be read, or no encoder answers to the name of
    the image file. *)
Definition imwrite_raises (args : Args) (path : string) (w : world) : Prop :=
  save_img args = true
  /\ (snd (imread path w) = Ok None \/ has_encoder (img_file args path) = false).

(** The image with more drawn on it. *)
Definition draw_more (ovs : list overlay) (im : image) : image :=
  {| im_pixels := im_pixels im; im_drawn := im_drawn im ++ ovs |}.

(** The computation [m] raises nothing but exceptions in [P]. *)
Definition raises_only {A} (P : exn -> Prop) (m : M A) : Prop :=
  forall w e, snd (m w) = Raise e -> P e.

(** The exceptions of the loop of [overlay_boxes]: a label without a
    name, a text file that cannot be appended to, no colour, and what
    [cv2] raises. *)
Definition loop_exn (e : exn) : Prop :=
  e = IndexError \/ e = IsADirectoryError \/ e = PermissionError
  \/ e = ZeroDivisionError \/ e = Cv2Error.

(** [l] is the line printed for the prediction [pred]: a summary, which
    is empty for a prediction that is [None] or empty, and the time. *)
Definition printed_for (t : Q) (pred : prediction) (l : string) : Prop :=
  exists summary,
    l = summary ++ "Done. (" ++ fmt_f 3 t ++ "s)"
    /\ (empty_pred pred -> summary = "").

(** All characters of a string satisfy [P]. *)
Fixpoint all_chars (P : ascii -> bool) (s : string) : bool :=
  match s with
  | EmptyString => true
  | String c r => P c && all_chars P r
  end.

Definition is_break (c : ascii) : bool := Ascii.eqb c Text.LF || Ascii.eqb c Text.CR.

(** A name as [load_names] gives it: no white space around it and no
    line break in it. *)
Definition clean (n : string) : Prop :=
  Text.strip n = n /\ all_chars (fun c => negb (is_break c)) n = true.

(** The line terminators of text files: ["\n"], ["\r\n"] and ["\r"]. *)
Definition is_eol (eol : string) : Prop :=
  eol = String Text.LF "" \/ eol = String Text.CR (String Text.LF "")
  \/ eol = String Text.CR "".

(** The text of a label map: each name on a line of its own, ended by
    [eol]. *)
Definition names_text (eol : string) (names : list string) : string :=
  Text.join (map (fun n => n ++ eol) names).

(** A corner on which 32-bit floats do what the rationals do: rounding
    it does not give the negative zero, which is what a corner from -1/2
    up to 0 rounds to and which is no rational, and the rounded corner is
    at most [2^23] in size, so that the sum and the difference of two of
    them, and the half of the sum, have 24 bits. *)
Definition exact_corner (c : Q) : bool :=
  (Qle_bool 0 c || negb (Qle_bool (- (1 # 2)) c))
  && (- 2 ^ 23 <=? round_half_even c) && (round_half_even c <=? 2 ^ 23).

Definition exact_box (b : box) : bool :=
  exact_corner (bx1 b) && exact_corner (by1 b)
  && exact_corner (bx2 b) && exact_corner (by2 b).

(** A class id that is a 64-bit float as it is. *)
Definition exact_label (c : Z) : bool := (- 2 ^ 53 <=? c) && (c <=? 2 ^ 53).

(** The detections on which the arithmetic of [torch] is exact, so that
    the numbers written are those of the rationals. *)
Definition in_float_range (d : detections) : bool :=
  forallb exact_box (boxes d) && forallb exact_label (labels d).

(** The characters of a number as ['%g'] writes it: digits, sign, point
    and exponent mark. *)
Definition numeral_char (c : ascii) : bool :=
  let n := N_of_ascii c in
  ((48 <=? n) && (n <=? 57))%N
  || Ascii.eqb c "."%char || Ascii.eqb c "-"%char
  || Ascii.eqb c "+"%char || Ascii.eqb c "e"%char.

(** A number in a line of text: some such characters and nothing else,
    so no blank and no line end. *)
Definition numeral (s : string) : Prop :=
  s <> "" /\ all_chars numeral_char s = true.

(** A line of five numbers, each followed by a blank. *)
Definition five_fields (l : string) : Prop :=
  exists c cx cy bw bh,
    Forall numeral [c; cx; cy; bw; bh]
    /\ l = c ++ " " ++ cx ++ " " ++ cy ++ " " ++ bw ++ " " ++ bh ++ " "
            ++ String Text.LF "".


End MoreProps.

Import MoreProps.

(** ** More concrete inputs *)

Module MoreExamples.

(** A whole call of [overlay_boxes] on the example world, run. *)
Definition demo_call : world * result (list (list Q) * list Q * list Z) :=
  overlay_boxes [Dict demo_det] demo_path 0.0421%Q demo_args demo_world.

Definition demo_call_world : world := fst demo_call.

Definition demo_call_result : list (list Q) * list Q * list Z :=
  match snd demo_call with
  | Ok r => r
  | Raise _ => ([], [], [])
  end.


(** A prediction with a label beyond the two names. *)
Definition nameless_det : detections :=
  {| boxes := [ {| bx1 := 1; by1 := 1; bx2 := 2; by2 := 2 |};
                {| bx1 := 3; by1 := 3; bx2 := 4; by2 := 4 |} ]%Q;
     scores := [0.5; 0.5]%Q;
     labels := [0; 5] |}.

(** The detections of [demo_det] in another order. *)
Definition shuffled_det : detections :=
  {| boxes := [ {| bx1 := 0.2; by1 := 0.3; bx2 := 100; by2 := 200 |};
                {| bx1 := 10.4; by1 := 20.5; bx2 := 30.5; by2 := 41.5 |};
                {| bx1 := 1; by1 := 1; bx2 := 2; by2 := 2 |} ]%Q;
     scores := [0.5; 0.875; 0.25]%Q;
     labels := [0; 1; 1] |}.

Definition shuffled_step : world * result loop_vars :=
  prediction_step demo_args demo_path 0.0421%Q demo_vars (Dict shuffled_det) demo_world.

Definition shuffled_vars' : loop_vars :=
  match snd shuffled_step with
  | Ok vars => vars
  | Raise _ => demo_vars
  end.


(** A world without files. *)
Definition empty_world : world := {| fs := ∅; stdout := [] |}.

(** Two predictions without detections, on an input that is not there. *)
Definition void_call : world * result (list (list Q) * list Q * list Z) :=
  overlay_boxes [PyNone; EmptyDict] demo_path 0.0421%Q demo_args empty_world.

(** A label map with Windows line ends and no line end after the last
    name. *)
Definition crlf_world : world :=
  {| fs := {[ "coco.names" :=
                File rw (Text ("person" ++ String Text.CR (String Text.LF
                               ("tie" ++ String Text.CR (String Text.LF "kite"))))) ]};
     stdout := [] |}.

(** A command line, a detector that returns [demo_det] for every input,
    and a world that holds the label map beside the input image. *)
Definition demo_cli : Cli :=
  {| labelmap := "./coco.names"; input_source := "in/zidane.jpg";
     cli_output_dir := "./out"; cli_save_txt := true; cli_save_img := true |}.

Definition demo_rt : Runtime :=
  {| show_args := "Namespace(labelmap='./coco.names')";
     build_model := ret tt;
     randint := fun i => (Z.of_nat i * 37) mod 255;
     warm_up := ret tt;
     inference := fun _ => ret ([Dict demo_det], 0.0421%Q);
     total_time_consume := 0.05%Q |}.



End MoreExamples.

Import MoreExamples.

(** ** The run time on examples *)

Example strip_example :
  Text.strip (String "009" (" tie " ++ String Text.CR (String Text.LF ""))) = "tie".
Proof. reflexivity. Qed.

Example universal_newlines_example :
  Text.universal_newlines
    ("a" ++ String Text.CR (String Text.LF ("b" ++ String Text.CR "c")))
  = "a" ++ String Text.LF ("b" ++ String Text.LF "c").
Proof. reflexivity. Qed.

Example lines_example :
  Text.lines ("a" ++ String Text.LF (String Text.LF "bc"))
  = ["a" ++ String Text.LF ""; String Text.LF ""; "bc"].
Proof. reflexivity. Qed.

Example round_half_even_example :
  map round_half_even [0.5; 1.5; 2.5; -0.5; -1.5; 2.4; -2.6; 41.5]%Q
  = [0; 2; 2; 0; -2; 2; -3; 42].
Proof. reflexivity. Qed.

Example fmt_g_example :
  map fmt_g [320.5; 1234567; 0.0001; 0.00001; 100; 999999.5; -3; 0; 12.25; 1 # 3]%Q
  = ["320.5"; "1.23457e+06"; "0.0001"; "1e-05"; "100"; "1e+06"; "-3"; "0";
     "12.25"; "0.333333"].
Proof. vm_compute. reflexivity. Qed.

Example fmt_f_example :
  (fmt_f 2 0.875, fmt_f 2 0.5, fmt_f 3 0.0421, fmt_f 2 (-0.001))%Q
  = ("0.88", "0.50", "0.042", "-0.00").
Proof. vm_compute. reflexivity. Qed.

Example path_example :
  let p := parse "./test/assets/zidane.jpg" in
  (str p, name p, stem p, str (parent p)) = ("test/assets/zidane.jpg", "zidane.jpg", "zidane", "test/assets").
Proof. vm_compute. reflexivity. Qed.

Example path_corner_example :
  (str (parse ""), name (parse "/"), str (parse "//a/b/"), str (parse "///a//./b"),
   stem (parse "a/.bashrc"), stem (parse "c.tar.gz"), str (joinpath (parse "out") "/abs"))
  = (".", "", "//a/b", "/a/b", ".bashrc", "c.tar", "/abs").
Proof. vm_compute. reflexivity. Qed.

Example has_encoder_example :
  map has_encoder ["out/zidane.jpg"; "out/zidane.PNG"; "out/zidane"; "out/zidane.txt"]
  = [true; true; false; false].
Proof. vm_compute. reflexivity. Qed.

Example imwrite_example :
  map (fun p => snd (imwrite p (Some zidane) demo_world))
    ["out/a.jpg"; "out/a.pgm"; "gone/a.jpg"; "out"; "out/a.exr"; "a.gif"]
  = [Ok true; Ok false; Ok false; Raise Cv2Error; Raise Cv2Error; Ok true].
Proof. vm_compute. reflexivity. Qed.

Example in_float_range_example :
  (in_float_range demo_det,
   map exact_corner [0; 0.4; -0.5; -0.25; -0.75; 8388608.5; 8388609]%Q)
  = (true, [true; true; false; false; true; true; false]).
Proof. vm_compute. reflexivity. Qed.

Example five_numbers_example :
  (five_numbers 1 10 20 30 42, written_lines (Dict demo_det))
  = ("1 20 31 20 22 " ++ String Text.LF "",
     ["1 20 31 20 22 " ++ String Text.LF ""; "0 50 100 100 200 " ++ String Text.LF "";
      "1 1.5 1.5 1 1 " ++ String Text.LF ""]).
Proof. vm_compute. reflexivity. Qed.

Example unique_example : unique [3; 1; 3; 0; 1] = [0; 1; 3].
Proof. reflexivity. Qed.

Example py_index_example :
  (py_index ["a"; "b"; "c"] 0, py_index ["a"; "b"; "c"] (-1),
   py_index ["a"; "b"; "c"] 3, py_index ["a"; "b"; "c"] (-4))
  = (Ok "a", Ok "c", Raise IndexError, Raise IndexError).
Proof. reflexivity. Qed.

Example zip3_example : zip3 [1; 2; 3] [true; false] ["a"; "b"; "c"] = [(1, true, "a"); (2, false, "b")].
Proof. reflexivity. Qed.

(** The call on the example world: three lines after the old one, the
    summary on the standard output, and the rounded boxes returned. *)
Example overlay_boxes_example :
  let r := overlay_boxes [Dict demo_det] demo_path 0.0421%Q demo_args demo_world in
  tail_text (fst r) "out/zidane.txt"
  = "0 5 5 10 10 " ++ String Text.LF
      ("1 20 31 20 22 " ++ String Text.LF
         ("0 50 100 100 200 " ++ String Text.LF
            ("1 1.5 1.5 1 1 " ++ String Text.LF "")))
  /\ stdout (fst r) = ["1 persons, 2 ties, Done. (0.042s)"]
  /\ snd r = Ok ([[10; 20; 30; 42]; [0; 0; 100; 200]; [1; 1; 2; 2]]%Q,
                 [0.875; 0.5; 0.25]%Q, [1; 0; 1]).
Proof. vm_compute. repeat split; reflexivity. Qed.

(** ** Strings *)

Lemma app_String (c : ascii) (s t : string) : String c s ++ t = String c (s ++ t).
Proof. reflexivity. Qed.

Lemma app_Empty (t : string) : "" ++ t = t.
Proof. reflexivity. Qed.

Lemma string_app_nil_r (s : string) : s ++ "" = s.
Proof.
  induction s as [|c s IH]; [reflexivity |].
  rewrite app_String. now f_equal.
Qed.

Lemma string_app_assoc (a b c : string) : (a ++ b) ++ c = a ++ b ++ c.
Proof.
  induction a as [|x a IH]; [reflexivity |].
  rewrite !app_String. now f_equal.
Qed.

Lemma string_length_app (a b : string) :
  String.length (a ++ b) = (String.length a + String.length b)%nat.
Proof.
  induction a as [|x a IH]; [reflexivity |].
  rewrite app_String. simpl. now rewrite IH.
Qed.



(** ** The lines of a text *)

(** Putting the lines of a text together gives the text back. *)
Lemma lines_join (s : string) : Text.join (Text.lines s) = s.
Proof.
  induction s as [|c s IH]; simpl; [reflexivity |].
  destruct (Ascii.eqb c Text.LF).
  - unfold Text.join in *. simpl. rewrite IH. reflexivity.
  - destruct (Text.lines s) as [|l ls]; unfold Text.join in *; simpl in *.
    + now rewrite <- IH.
    + rewrite app_String. now rewrite IH.
Qed.

(** No line is empty: a blank line of the file is the line ["\n"]. *)
Lemma lines_not_empty (s : string) : Forall (fun l => l <> "") (Text.lines s).
Proof.
  induction s as [|c s IH]; simpl; [constructor |].
  destruct (Ascii.eqb c Text.LF).
  - constructor; [discriminate | assumption].
  - destruct (Text.lines s) as [|l ls].
    + constructor; [discriminate | constructor].
    + inversion IH; subst. constructor; [discriminate | assumption].
Qed.

(** A line holds a line terminator at its end or nowhere. *)
Lemma lines_shape (s : string) :
  Forall (fun l => exists body,
            Text.count_newlines body = 0%nat
            /\ (l = body ++ String Text.LF "" \/ l = body))
    (Text.lines s).
Proof.
  induction s as [|c s IH]; simpl; [constructor |].
  destruct (Ascii.eqb c Text.LF) eqn:Ec.
  - apply Ascii.eqb_eq in Ec. subst c.
    constructor; [| exact IH]. exists "". split; [reflexivity | now left].
  - destruct (Text.lines s) as [|l ls].
    + constructor; [| constructor]. exists (String c "").
      split; [simpl; now rewrite Ec | now right].
    + inversion IH as [|? ? (body & Hb & Hl) Hls]; subst.
      constructor; [| exact Hls]. exists (String c body).
      split; [simpl; now rewrite Ec, Hb |].
      destruct Hl as [->| ->]; [left | right]; reflexivity.
Qed.

(** There are as many lines as line terminators, and one more when the
    text goes on after the last of them. *)
Lemma lines_length (s : string) :
  (Text.count_newlines s <= length (Text.lines s) <= S (Text.count_newlines s))%nat.
Proof.
  induction s as [|c s IH]; simpl; [lia |].
  destruct (Ascii.eqb c Text.LF); simpl; [lia |].
  destruct (Text.lines s) as [|l ls]; simpl in *; lia.
Qed.

(** The loop of [load_names] builds the list of the stripped lines. *)
Lemma append_loop_map {A B} (f : A -> B) (l : list A) (acc : list B) :
  fold_left (fun names line => (names ++ [f line])%list) l acc = (acc ++ map f l)%list.
Proof.
  revert acc. induction l as [|x l IH]; intros acc; simpl.
  - now rewrite app_nil_r.
  - rewrite IH. now rewrite <- app_assoc.
Qed.

Lemma load_names_text (w : world) (p : string) (pm : perm) (body : string) :
  fs w !! p = Some (File pm (Text body)) ->
  can_read pm = true ->
  load_names p w
  = (w, Ok (map Text.strip (Text.lines (Text.universal_newlines body)))).
Proof.
  intros Hp Hr. unfold load_names, bind, open_r. rewrite Hp, Hr. simpl.
  unfold ret. now rewrite append_loop_map.
Qed.

(** C1, as the code has it: [load_names] returns one entry per line of
    the file, blank lines included, in the order of the lines; the entry
    of a line is the line stripped of surrounding white space. *)
Theorem load_names_one_entry_per_line (w : world) (p : string) (pm : perm)
    (body : string) :
  fs w !! p = Some (File pm (Text body)) ->
  can_read pm = true ->
  exists names,
    load_names p w = (w, Ok names)
    /\ length names = length (Text.lines (Text.universal_newlines body))
    /\ forall (i : nat) (line : string),
         Text.lines (Text.universal_newlines body) !! i = Some line ->
         names !! i = Some (Text.strip line).
Proof.
  intros Hp Hr. eexists. split; [apply (load_names_text w p pm body Hp Hr) |].
  split; [now rewrite length_map |].
  intros i line Hi. now rewrite list_lookup_fmap, Hi.
Qed.

Lemma load_names_one_entry_per_line_witness :
  exists names,
    load_names "coco.names" names_world = (names_world, Ok names)
    /\ length names = 3%nat
    /\ forall (i : nat) (line : string),
         Text.lines (Text.universal_newlines
           ("person" ++ String Text.LF (String Text.LF ("bicycle" ++ String Text.LF ""))))
           !! i = Some line ->
         names !! i = Some (Text.strip line).
Proof.
  exact (load_names_one_entry_per_line names_world "coco.names" rw _
           eq_refl eq_refl).
Defined.

(** C1 as it is worded fails: a blank line gives an entry of its own, so
    a file of three lines, one of them blank, gives three names and not
    two. *)
Lemma load_names_blank_line_entry :
  snd (load_names "coco.names" names_world) = Ok ["person"; ""; "bicycle"]
  /\ length (nonempty_lines
       ("person" ++ String Text.LF (String Text.LF ("bicycle" ++ String Text.LF ""))))
     = 2%nat.
Proof. split; vm_compute; reflexivity. Qed.

(** C7: [load_names] raises exactly what opening or reading the file
    raises, leaves the world as it is, and returns exactly when the path
    names a readable text file. *)
Theorem load_names_propagates_errors (w : world) (p : string) :
  fst (load_names p w) = w
  /\ (forall e : exn,
        snd (load_names p w) = Raise e <->
        (snd (open_r p w) = Raise e
         \/ exists f, snd (open_r p w) = Ok f /\ snd (read_lines f w) = Raise e))
  /\ (is_ok (snd (load_names p w)) = true <->
      exists pm body,
        fs w !! p = Some (File pm (Text body)) /\ can_read pm = true).
Proof.
  unfold load_names, bind, open_r.
  destruct (fs w !! p) as [[|pm [body|im t]]|] eqn:Hp; simpl;
    try destruct (can_read pm) eqn:Hr; simpl.
  all: split; [reflexivity |].
  all: split;
    [ intros e; split; [intros H | intros [H|(f & H1 & H2)]]
    | split; [intros H | intros (pm' & body' & H & Hr')] ].
  all: simplify_eq /=; eauto.
Qed.

(** ** What a computation keeps *)

Section Keeps.
Variable R : world -> world -> Prop.
Hypothesis R_refl : forall w, R w w.
Hypothesis R_trans : forall w1 w2 w3, R w1 w2 -> R w2 w3 -> R w1 w3.

Lemma keeps_ret {A} (a : A) : keeps R (ret a).
Proof. intros w. apply R_refl. Qed.

Lemma keeps_raise {A} (e : exn) : keeps R (@raise A e).
Proof. intros w. apply R_refl. Qed.

Lemma keeps_lift {A} (r : result A) : keeps R (lift r).
Proof. intros w. apply R_refl. Qed.

Lemma keeps_bind {A B} (m : M A) (k : A -> M B) :
  keeps R m -> (forall a, keeps R (k a)) -> keeps R (bind m k).
Proof.
  intros Hm Hk w. unfold bind. specialize (Hm w).
  destruct (m w) as [w' [a|e]]; simpl in *; [| exact Hm].
  eapply R_trans; [exact Hm | apply Hk].
Qed.

Lemma keeps_foldM {A B} (body : A -> B -> M A) (l : list B) :
  (forall a x, keeps R (body a x)) -> forall a, keeps R (foldM body a l).
Proof.
  intros Hb. induction l as [|x l IH]; intros a; simpl.
  - apply keeps_ret.
  - apply keeps_bind; [apply Hb | intros a'; apply IH].
Qed.
End Keeps.

(** ** Extensions *)

Lemma rfind_dot_app (s t : string) (i : nat) :
  rfind_dot t = Some i -> rfind_dot (s ++ t) = Some (String.length s + i)%nat.
Proof.
  intros Ht. induction s as [|c s IH]; [exact Ht |].
  rewrite app_String. simpl. now rewrite IH.
Qed.

Lemma substring_skip (s t : string) (k n : nat) :
  String.substring (String.length s + k) n (s ++ t) = String.substring k n t.
Proof. induction s as [|c s IH]; [reflexivity | rewrite app_String; exact IH]. Qed.

Lemma extension_txt (s : string) : extension (s ++ ".txt") = "txt".
Proof.
  unfold extension. rewrite (rfind_dot_app s ".txt" 0) by reflexivity.
  rewrite Nat.add_0_r, string_length_app.
  replace (String.length s + String.length ".txt" - S (String.length s))%nat with 3%nat
    by (simpl; lia).
  replace (S (String.length s)) with (String.length s + 1)%nat by lia.
  now rewrite substring_skip.
Qed.

(** [cv2] has no encoder for a text file's name. *)
Lemma no_encoder_txt (s : string) : has_encoder (s ++ ".txt") = false.
Proof. unfold has_encoder. rewrite extension_txt. reflexivity. Qed.

Lemma txt_file_not_img_file (args : Args) (path : string) (p : string) :
  p = txt_file args path -> has_encoder p = true -> False.
Proof. intros -> H. unfold txt_file in H. rewrite no_encoder_txt in H. discriminate. Qed.

(** ** The files [overlay_boxes] touches *)

Lemma node_append_app (n : option node) (s t : string) :
  node_append (node_append n s) t = node_append n (s ++ t).
Proof.
  destruct n as [[|pm [b|im tl]]|]; simpl; try reflexivity;
    now rewrite string_app_assoc.
Qed.

Lemma holds_picture_append (n : option node) (s : string) :
  holds_picture n -> exists pm im t, node_append n s = Some (File pm (Picture im t)).
Proof. intros (pm & im & ->). simpl. eauto. Qed.

Lemma outputs_only_refl (args : Args) (path : string) (w : world) :
  outputs_only args path w w.
Proof. intros p. now left. Qed.

Lemma outputs_only_trans (args : Args) (path : string) (w1 w2 w3 : world) :
  outputs_only args path w1 w2 -> outputs_only args path w2 w3 ->
  outputs_only args path w1 w3.
Proof.
  intros H12 H23 p.
  destruct (H23 p) as [E23|[(Ht & Hp & s & E23)|(Hi & Hp & He & Hpic)]].
  - rewrite E23. apply H12.
  - destruct (H12 p) as [E12|[(_ & _ & s' & E12)|(_ & _ & He & _)]].
    + right; left. repeat split; try assumption. exists s. now rewrite E23, E12.
    + right; left. repeat split; try assumption. exists (s' ++ s).
      now rewrite E23, E12, node_append_app.
    + exfalso. eapply txt_file_not_img_file; eassumption.
  - right; right. repeat split; assumption.
Qed.

Section Outputs.
Variables (args : Args) (path : string).

Let R := outputs_only args path.

Lemma keeps_outputs_ret {A} (a : A) : keeps R (ret a).
Proof. apply keeps_ret, outputs_only_refl. Qed.

Lemma keeps_outputs_bind {A B} (m : M A) (k : A -> M B) :
  keeps R m -> (forall a, keeps R (k a)) -> keeps R (bind m k).
Proof. apply keeps_bind, outputs_only_trans. Qed.

Lemma keeps_outputs_lift {A} (r : result A) : keeps R (lift r).
Proof. apply keeps_lift, outputs_only_refl. Qed.

Lemma keeps_outputs_print (s : string) : keeps R (print s).
Proof. intros w p. now left. Qed.

Lemma keeps_outputs_imread (p : string) : keeps R (imread p).
Proof.
  intros w. unfold imread.
  destruct (fs w !! p) as [[|pm [b|im t]]|]; try apply outputs_only_refl.
  destruct (can_read pm); apply outputs_only_refl.
Qed.

Lemma keeps_outputs_append (s : string) :
  save_txt args = true -> keeps R (append_text (txt_file args path) s).
Proof.
  intros Ht w q. unfold append_text.
  destruct (fs w !! txt_file args path) as [[|pm d]|] eqn:E; simpl.
  - now left.
  - destruct (can_write pm); simpl; [| now left].
    destruct (decide (q = txt_file args path)) as [->|Hne].
    + right; left. repeat split; try assumption. exists s.
      now rewrite lookup_insert_eq, E.
    + left. now rewrite lookup_insert_ne.
  - destruct (decide (q = txt_file args path)) as [->|Hne].
    + right; left. repeat split; try assumption. exists s.
      now rewrite lookup_insert_eq, E.
    + left. now rewrite lookup_insert_ne.
Qed.

Lemma keeps_outputs_imwrite (img : option image) :
  save_img args = true -> keeps R (imwrite (img_file args path) img).
Proof.
  intros Hi w q. unfold imwrite.
  destruct img as [im|]; [| now left].
  destruct (has_encoder (img_file args path)) eqn:He; [| now left].
  destruct (takes_colour (img_file args path) && dir_exists w (img_file args path));
    [| now left].
  destruct (fs w !! img_file args path) as [[|pm d]|] eqn:E; simpl.
  - now left.
  - destruct (can_write pm); simpl; [| now left].
    destruct (decide (q = img_file args path)) as [->|Hne].
    + right; right. repeat split; try assumption.
      rewrite lookup_insert_eq. now exists pm, im.
    + left. now rewrite lookup_insert_ne.
  - destruct (decide (q = img_file args path)) as [->|Hne].
    + right; right. repeat split; try assumption.
      rewrite lookup_insert_eq. now exists rw, im.
    + left. now rewrite lookup_insert_ne.
Qed.

Lemma keeps_outputs_plot (xyxy : box) (img : option image) (label : string)
    (color : list Z) (th : Z) :
  keeps R (plot_one_box xyxy img label color th).
Proof. destruct img; intros w; apply outputs_only_refl. Qed.

Lemma keeps_outputs_write_label (xyxy : box) (cls_name : Z) :
  keeps R (write_label args
             (joinpath (parse (output_dir args)) (stem (parse path))) xyxy cls_name).
Proof.
  unfold write_label. destruct (save_txt args) eqn:Ht.
  - now apply keeps_outputs_append.
  - apply keeps_outputs_ret.
Qed.

Lemma keeps_outputs_draw_box (img : option image) (xyxy : box) (conf : Q)
    (cls_name : Z) :
  keeps R (draw_box args img xyxy conf cls_name).
Proof.
  unfold draw_box. destruct (save_img args); [| apply keeps_outputs_ret].
  apply keeps_outputs_bind; [apply keeps_outputs_lift | intros nm].
  apply keeps_outputs_bind; [apply keeps_outputs_lift | intros k].
  apply keeps_outputs_bind; [apply keeps_outputs_lift | intros color].
  apply keeps_outputs_plot.
Qed.

Lemma keeps_outputs_detection_step (img : option image) (d : box * Q * Z) :
  keeps R (detection_step args
             (joinpath (parse (output_dir args)) (stem (parse path))) img d).
Proof.
  destruct d as [[xyxy conf] cls_name]. unfold detection_step.
  apply keeps_outputs_bind; [apply keeps_outputs_write_label | intros _].
  apply keeps_outputs_draw_box.
Qed.

Lemma keeps_outputs_summary_step (labels : list Z) (logs : string) (c : Z) :
  keeps R (summary_step args labels logs c).
Proof.
  unfold summary_step.
  apply keeps_outputs_bind; [apply keeps_outputs_lift | intros nm].
  apply keeps_outputs_ret.
Qed.

Lemma keeps_outputs_prediction_step (t : Q) (vars : loop_vars) (pred : prediction) :
  keeps R (prediction_step args path t vars pred).
Proof.
  unfold prediction_step.
  apply keeps_outputs_bind.
  - destruct (is_nonempty pred); [| apply keeps_outputs_ret].
    destruct pred as [| |d]; try apply keeps_outputs_ret.
    apply keeps_outputs_bind.
    + apply keeps_foldM;
        [apply outputs_only_refl | apply outputs_only_trans
        | intros; apply keeps_outputs_summary_step].
    + intros logs. apply keeps_outputs_bind; [| intros; apply keeps_outputs_ret].
      apply keeps_foldM;
        [apply outputs_only_refl | apply outputs_only_trans
        | intros; apply keeps_outputs_detection_step].
  - intros r. apply keeps_outputs_bind; [apply keeps_outputs_print | intros _].
    apply keeps_outputs_bind; [| intros; apply keeps_outputs_ret].
    destruct (save_img args) eqn:Hi; [| apply keeps_outputs_ret].
    apply keeps_outputs_bind; [| intros; apply keeps_outputs_ret].
    now apply keeps_outputs_imwrite.
Qed.

(** Whatever it is called with and however it ends, [overlay_boxes] only
    appends to the text file and only puts an image into the image file,
    the one when [save_txt] and the other when [save_img] is set. *)
Lemma keeps_outputs_overlay_boxes (dets : list prediction) (t : Q) :
  keeps R (overlay_boxes dets path t args).
Proof.
  unfold overlay_boxes.
  apply keeps_outputs_bind.
  - destruct (save_img args); [apply keeps_outputs_imread | apply keeps_outputs_ret].
  - intros img. apply keeps_outputs_bind.
    + apply keeps_foldM;
        [apply outputs_only_refl | apply outputs_only_trans
        | intros; apply keeps_outputs_prediction_step].
    + intros vars. destruct (v_bound vars); intros w; apply outputs_only_refl.
Qed.

End Outputs.

(** ** Successful writes *)

Lemma appended_refl (n : option node) : appended n n "".
Proof. now left. Qed.

Lemma node_append_not_dir (n : option node) (s : string) :
  n <> Some Dir -> node_append n s <> Some Dir.
Proof. destruct n as [[|pm d]|]; simpl; congruence. Qed.

Lemma appended_trans (a b c : option node) (s t : string) :
  appended a b s -> appended b c t -> appended a c (s ++ t).
Proof.
  intros [[-> ->]|[Ha ->]] [[-> ->]|[Hb ->]].
  - now left.
  - right. now split.
  - right. rewrite string_app_nil_r. now split.
  - right. split; [assumption | apply node_append_app].
Qed.


Lemma appended_tail_text (w w' : world) (p : string) (s : string) :
  appended (fs w !! p) (fs w' !! p) s ->
  tail_text w' p = tail_text w p ++ s.
Proof.
  unfold tail_text. intros [[-> ->]|[Hd ->]].
  - now rewrite string_app_nil_r.
  - destruct (fs w !! p) as [[|pm [b|im t]]|]; simpl;
      first [reflexivity | congruence].
Qed.

Lemma append_text_ok (p s : string) (w w' : world) :
  append_text p s w = (w', Ok tt) ->
  appended (fs w !! p) (fs w' !! p) s /\ stdout w' = stdout w.
Proof.
  unfold append_text.
  destruct (fs w !! p) as [[|pm d]|] eqn:E; [discriminate | |].
  - destruct (can_write pm); [| discriminate].
    intros [= <-]. simpl. split; [| reflexivity].
    right. split; [discriminate |]. now rewrite lookup_insert_eq.
  - intros [= <-]. simpl. split; [| reflexivity].
    right. split; [discriminate |]. now rewrite lookup_insert_eq.
Qed.

Lemma lift_world {A} (r : result A) (w : world) : fst (lift r w) = w.
Proof. reflexivity. Qed.

Lemma draw_box_world (args : Args) (img : option image) (xyxy : box) (conf : Q)
    (cls_name : Z) (w : world) :
  fst (draw_box args img xyxy conf cls_name w) = w.
Proof.
  unfold draw_box, bind, lift, plot_one_box, ret, raise.
  destruct (save_img args); [| reflexivity].
  destruct (py_index (names args) cls_name); [| reflexivity].
  destruct (py_mod _ _); [| reflexivity].
  destruct (py_index (colors args) _); [| reflexivity].
  destruct img; reflexivity.
Qed.

Lemma summary_loop_world (args : Args) (labels : list Z) (cs : list Z)
    (logs : string) (w : world) :
  fst (foldM (summary_step args labels) logs cs w) = w.
Proof.
  revert logs. induction cs as [|c cs IH]; intros logs; [reflexivity |].
  simpl. unfold bind at 1. unfold summary_step at 1, bind, lift, ret.
  destruct (py_index (names args) c); [apply IH | reflexivity].
Qed.

Lemma imwrite_other (p q : string) (img : option image) (w : world) :
  q <> p -> fs (fst (imwrite p img w)) !! q = fs w !! q.
Proof.
  intros Hne. unfold imwrite.
  destruct img; [| reflexivity].
  destruct (has_encoder p); [| reflexivity].
  destruct (takes_colour p && dir_exists w p); [| reflexivity].
  destruct (fs w !! p) as [[|pm d]|]; [reflexivity | |].
  - destruct (can_write pm); [| reflexivity]. simpl. now rewrite lookup_insert_ne.
  - simpl. now rewrite lookup_insert_ne.
Qed.

Lemma imwrite_no_encoder (p : string) (img : option image) (w : world) :
  has_encoder p = false -> fst (imwrite p img w) = w.
Proof. intros He. unfold imwrite. destruct img; [now rewrite He | reflexivity]. Qed.

Lemma imwrite_stdout (p : string) (img : option image) (w : world) :
  stdout (fst (imwrite p img w)) = stdout w.
Proof.
  unfold imwrite. destruct img; [| reflexivity].
  destruct (has_encoder p); [| reflexivity].
  destruct (takes_colour p && dir_exists w p); [| reflexivity].
  destruct (fs w !! p) as [[|pm d]|]; [reflexivity | |]; [| reflexivity].
  destruct (can_write pm); reflexivity.
Qed.

(** Writing the image never touches the text file. *)
Lemma imwrite_keeps_txt (args : Args) (path : string) (img : option image) (w : world) :
  fs (fst (imwrite (img_file args path) img w)) !! txt_file args path
  = fs w !! txt_file args path.
Proof.
  destruct (has_encoder (img_file args path)) eqn:He.
  - apply imwrite_other. intros Heq. rewrite <- Heq in He.
    unfold txt_file in He. rewrite no_encoder_txt in He. discriminate.
  - now rewrite imwrite_no_encoder.
Qed.

Lemma bind_ok {A B} (m : M A) (k : A -> M B) (w w' : world) (b : B) :
  bind m k w = (w', Ok b) ->
  exists w1 a, m w = (w1, Ok a) /\ k a w1 = (w', Ok b).
Proof.
  unfold bind. destruct (m w) as [w1 [a|e]]; [eauto | discriminate].
Qed.

Lemma ret_ok {A} (a b : A) (w w' : world) : ret a w = (w', Ok b) -> w' = w /\ b = a.
Proof. unfold ret. now intros [= <- <-]. Qed.

Ltac bind_inv H :=
  let w1 := fresh "w" in
  let a := fresh "a" in
  let H1 := fresh H in
  apply bind_ok in H; destruct H as (w1 & a & H1 & H).

Lemma write_label_ok (args : Args) (path : string) (xyxy : box) (cls_name : Z)
    (w w' : world) :
  write_label args (joinpath (parse (output_dir args)) (stem (parse path)))
    xyxy cls_name w = (w', Ok tt) ->
  save_txt args = true ->
  appended (fs w !! txt_file args path) (fs w' !! txt_file args path)
    (label_line cls_name (box_convert_xyxy_cxcywh xyxy)).
Proof.
  unfold write_label. intros H Ht. rewrite Ht in H.
  now apply append_text_ok in H.
Qed.

Lemma detection_step_ok (args : Args) (path : string) (img img' : option image)
    (xyxy : box) (conf : Q) (cls_name : Z) (w w' : world) :
  detection_step args (joinpath (parse (output_dir args)) (stem (parse path)))
    img (xyxy, conf, cls_name) w = (w', Ok img') ->
  save_txt args = true ->
  appended (fs w !! txt_file args path) (fs w' !! txt_file args path)
    (label_line cls_name (box_convert_xyxy_cxcywh xyxy)).
Proof.
  unfold detection_step. intros H Ht. bind_inv H. destruct a.
  pose proof (draw_box_world args img xyxy conf cls_name w0) as Hw.
  rewrite H in Hw. simpl in Hw. subst w'.
  now apply (write_label_ok args path xyxy cls_name).
Qed.

(** When the loop over the detections comes to its end, the text file has
    been appended one line per detection, in their order. *)
Lemma detection_loop_ok (args : Args) (path : string) (l : list (box * Q * Z)) :
  save_txt args = true ->
  forall (img img' : option image) (w w' : world),
  foldM (detection_step args (joinpath (parse (output_dir args)) (stem (parse path))))
    img l w = (w', Ok img') ->
  appended (fs w !! txt_file args path) (fs w' !! txt_file args path)
    (Text.join (map (fun '(xyxy, _, cls_name) =>
                       label_line cls_name (box_convert_xyxy_cxcywh xyxy)) l)).
Proof.
  intros Ht. induction l as [|[[xyxy conf] cls_name] l IH]; intros img img' w w' H.
  - apply ret_ok in H as [-> _]. apply appended_refl.
  - simpl in H. bind_inv H.
    apply (detection_step_ok args path) in H0; [| assumption].
    apply IH in H. simpl. unfold Text.join. simpl.
    eapply appended_trans; eassumption.
Qed.

(** When an iteration of the loop over the predictions comes to its end,
    the text file has been appended the lines of the prediction. *)
Lemma prediction_step_ok (args : Args) (path : string) (t : Q)
    (vars vars' : loop_vars) (pred : prediction) (w w' : world) :
  save_txt args = true ->
  prediction_step args path t vars pred w = (w', Ok vars') ->
  appended (fs w !! txt_file args path) (fs w' !! txt_file args path)
    (Text.join (written_lines pred)).
Proof.
  intros Ht H. unfold prediction_step in H.
  bind_inv H. bind_inv H. bind_inv H.
  apply ret_ok in H as [-> _].
  assert (Hw2 : fs w2 !! txt_file args path = fs w1 !! txt_file args path).
  { destruct (save_img args); [| now apply ret_ok in H2 as [-> _]].
    bind_inv H2. apply ret_ok in H2 as [-> _].
    pose proof (imwrite_keeps_txt args path (v_img a.2) w1) as Hk.
    unfold img_file in Hk. rewrite H3 in Hk. exact Hk. }
  assert (Hw1 : fs w1 = fs w0) by (unfold print in H1; now injection H1 as <- _).
  rewrite Hw2, Hw1. clear Hw2 Hw1 H1 H2.
  destruct pred as [| |d]; simpl in H0.
  - apply ret_ok in H0 as [-> _]. apply appended_refl.
  - apply ret_ok in H0 as [-> _]. apply appended_refl.
  - bind_inv H0. bind_inv H0. apply ret_ok in H0 as [-> _].
    pose proof (summary_loop_world args (labels d) (unique (labels d)) "" w) as Hs.
    rewrite H1 in Hs. simpl in Hs. subst w3.
    apply (detection_loop_ok args path) in H2; [| assumption]. exact H2.
Qed.




(** ** Formatted numbers hold no line terminator *)












(** ** The lines of a prediction *)


Lemma zip3_map_fst {A A' B C} (f : A -> A') (a : list A) (b : list B) (c : list C) :
  zip3 (map f a) b c = map (fun '(x, y, z) => (f x, y, z)) (zip3 a b c).
Proof.
  revert b c. induction a as [|x a IH]; intros [|y b] [|z c]; simpl; try reflexivity.
  now rewrite IH.
Qed.





(** C4: without [save_txt] the call writes no text: the only file that
    may differ afterwards is the image file, and then it holds an image;
    without [save_img] it writes no image: the only file that may differ
    is the text file, and then by text appended to it, so that every image
    found afterwards was there before; without both, the files are as
    they were.  All of this also when the call raises. *)
Theorem overlay_writes_only_what_is_asked (dets : list prediction) (path : string)
    (t : Q) (args : Args) (w : world) :
  (save_txt args = false ->
   forall p, fs (fst (overlay_boxes dets path t args w)) !! p = fs w !! p
             \/ (p = img_file args path
                 /\ holds_picture (fs (fst (overlay_boxes dets path t args w)) !! p)))
  /\ (save_img args = false ->
      forall p, fs (fst (overlay_boxes dets path t args w)) !! p = fs w !! p
                \/ (p = txt_file args path
                    /\ exists s, fs (fst (overlay_boxes dets path t args w)) !! p
                                 = node_append (fs w !! p) s))
  /\ (save_img args = false ->
      forall p pm im tl,
        fs (fst (overlay_boxes dets path t args w)) !! p = Some (File pm (Picture im tl)) ->
        exists tl0, fs w !! p = Some (File pm (Picture im tl0)))
  /\ (save_txt args = false -> save_img args = false ->
      fs (fst (overlay_boxes dets path t args w)) = fs w).
Proof.
  pose proof (keeps_outputs_overlay_boxes args path dets t w) as K.
  assert (B : save_img args = false ->
      forall p, fs (fst (overlay_boxes dets path t args w)) !! p = fs w !! p
                \/ (p = txt_file args path
                    /\ exists s, fs (fst (overlay_boxes dets path t args w)) !! p
                                 = node_append (fs w !! p) s)).
  { intros Hi p. destruct (K p) as [E|[(_ & Hp & Hs)|(Hi' & _)]];
      [now left | right; now split | congruence]. }
  split; [| split; [exact B | split]].
  - intros Ht p. destruct (K p) as [E|[(Ht' & _)|(_ & Hp & _ & Hpic)]];
      [now left | congruence | right; now split].
  - intros Hi p pm im tl Hp. destruct (B Hi p) as [E|(_ & s & E)].
    + exists tl. now rewrite <- E.
    + rewrite Hp in E. destruct (fs w !! p) as [[|pm' [b|im' tl']]|];
        simpl in E; try discriminate.
      injection E as <- <- _. eauto.
  - intros Ht Hi. apply map_eq. intros p.
    destruct (K p) as [E|[(Ht' & _)|(Hi' & _)]]; [exact E | congruence | congruence].
Qed.

(** ** The classes of a prediction *)

Lemma insert_sorted_In (c x : Z) (l : list Z) :
  In x (insert_sorted c l) <-> x = c \/ In x l.
Proof.
  induction l as [|y l IH]; simpl.
  - intuition.
  - destruct (c <? y); [simpl; intuition |].
    destruct (c =? y) eqn:E.
    + apply Z.eqb_eq in E. subst y. simpl. intuition.
    + simpl. rewrite IH. intuition.
Qed.

Lemma unique_In (c : Z) (l : list Z) : In c (unique l) <-> In c l.
Proof.
  induction l as [|x l IH]; simpl; [reflexivity |].
  rewrite insert_sorted_In, IH. intuition.
Qed.

Lemma insert_sorted_sorted (c : Z) (l : list Z) :
  StronglySorted Z.lt l -> StronglySorted Z.lt (insert_sorted c l).
Proof.
  induction 1 as [|y l Hl IH Hy]; simpl.
  - repeat constructor.
  - destruct (c <? y) eqn:E1.
    + apply Z.ltb_lt in E1. constructor; [now constructor |].
      constructor; [assumption |].
      eapply List.Forall_impl; [| exact Hy]. intros z Hz. simpl in Hz. lia.
    + destruct (c =? y) eqn:E2; [now constructor |].
      apply Z.ltb_ge in E1. apply Z.eqb_neq in E2.
      constructor; [assumption |].
      apply List.Forall_forall. intros z Hz. apply insert_sorted_In in Hz as [->|Hz].
      * lia.
      * rewrite List.Forall_forall in Hy. now apply Hy.
Qed.

(** [labels.unique()] is strictly increasing, hence without repetition. *)
Lemma unique_sorted (l : list Z) : StronglySorted Z.lt (unique l).
Proof.
  induction l as [|x l IH]; simpl; [constructor | now apply insert_sorted_sorted].
Qed.




Lemma keeps_stdout_refl (w : world) : stdout w = stdout w.
Proof. reflexivity. Qed.

Lemma keeps_stdout_trans (w1 w2 w3 : world) :
  stdout w2 = stdout w1 -> stdout w3 = stdout w2 -> stdout w3 = stdout w1.
Proof. congruence. Qed.

Lemma append_text_stdout (p s : string) :
  keeps (fun w w' => stdout w' = stdout w) (append_text p s).
Proof.
  intros w. unfold append_text.
  destruct (fs w !! p) as [[|pm d]|]; try reflexivity.
  destruct (can_write pm); reflexivity.
Qed.

(** Nothing is printed in the loop over the detections. *)
Lemma detection_loop_stdout (args : Args) (tp : Path) (l : list (box * Q * Z))
    (img : option image) :
  keeps (fun w w' => stdout w' = stdout w) (foldM (detection_step args tp) img l).
Proof.
  apply keeps_foldM; [reflexivity | intros w1 w2 w3 H1 H2; congruence |].
  intros a [[xyxy conf] c]. unfold detection_step.
  apply keeps_bind; [intros w1 w2 w3 H1 H2; congruence | |].
  - unfold write_label. destruct (save_txt args); [apply append_text_stdout |].
    apply keeps_ret. reflexivity.
  - intros _ w. now rewrite draw_box_world.
Qed.


(** ** Paths *)








(** ** The image file *)

Lemma append_text_other (p s : string) :
  keeps (fun w w' => forall q, q <> p -> fs w' !! q = fs w !! q) (append_text p s).
Proof.
  intros w q Hq. unfold append_text.
  destruct (fs w !! p) as [[|pm d]|]; try reflexivity.
  - destruct (can_write pm); [| reflexivity]. simpl. now rewrite lookup_insert_ne.
  - simpl. now rewrite lookup_insert_ne.
Qed.

(** The loop over the detections leaves all files but the text file. *)
Lemma detection_loop_other (args : Args) (path : string) (l : list (box * Q * Z))
    (img : option image) :
  keeps (fun w w' => forall q, q <> txt_file args path -> fs w' !! q = fs w !! q)
    (foldM (detection_step args
              (joinpath (parse (output_dir args)) (stem (parse path)))) img l).
Proof.
  apply keeps_foldM; [reflexivity | |].
  { intros w1 w2 w3 H1 H2 q Hq. now rewrite H2, H1. }
  intros a [[xyxy conf] c]. unfold detection_step.
  apply keeps_bind.
  - intros w1 w2 w3 H1 H2 q Hq. now rewrite H2, H1.
  - unfold write_label. destruct (save_txt args); [apply append_text_other |].
    apply keeps_ret. reflexivity.
  - intros _ w. now rewrite draw_box_world.
Qed.

(** [cv2.imwrite] returns only with an image and an encoder. *)
Lemma imwrite_ok (p : string) (img : option image) (w w' : world) (b : bool) :
  imwrite p img w = (w', Ok b) ->
  exists im, img = Some im /\ has_encoder p = true.
Proof.
  unfold imwrite. destruct img as [im|]; [| discriminate].
  destruct (has_encoder p); [| discriminate].
  intros _. now exists im.
Qed.

(** ** The variables bound by the loop *)

Lemma prediction_step_bound (args : Args) (path : string) (t : Q)
    (vars vars' : loop_vars) (pred : prediction) (w w' : world) :
  prediction_step args path t vars pred w = (w', Ok vars') ->
  v_bound vars' = bound_after (v_bound vars) [pred].
Proof.
  intros H. unfold prediction_step in H.
  bind_inv H. bind_inv H. bind_inv H. apply ret_ok in H as [_ ->].
  destruct pred as [| |d]; simpl in H0.
  - now apply ret_ok in H0 as [_ ->].
  - now apply ret_ok in H0 as [_ ->].
  - bind_inv H0. bind_inv H0. now apply ret_ok in H0 as [_ ->].
Qed.

Lemma prediction_loop_bound (args : Args) (path : string) (t : Q) (dets : list prediction) :
  forall (vars vars' : loop_vars) (w w' : world),
  foldM (prediction_step args path t) vars dets w = (w', Ok vars') ->
  v_bound vars' = bound_after (v_bound vars) dets.
Proof.
  induction dets as [|pred dets IH]; intros vars vars' w w' H.
  - now apply ret_ok in H as [_ ->].
  - simpl in H. bind_inv H. apply prediction_step_bound in H0.
    apply IH in H. rewrite H, H0. reflexivity.
Qed.

Lemma bound_after_Some (dets : list prediction) :
  forall (init : option detections) (b : detections),
  bound_after init dets = Some b ->
  (exists pre d post,
     dets = (pre ++ Dict d :: post)%list /\ Forall empty_pred post
     /\ b = {| boxes := map round_box (boxes d); scores := scores d; labels := labels d |})
  \/ (Forall empty_pred dets /\ init = Some b).
Proof.
  induction dets as [|pred dets IH]; intros init b H.
  - right. split; [constructor | exact H].
  - unfold bound_after in H. simpl in H. apply IH in H.
    destruct H as [(pre & d & post & -> & Hpost & ->)|[Hall Hinit]].
    + left. exists (pred :: pre), d, post. repeat split. exact Hpost.
    + destruct pred as [| |d].
      * right. split; [constructor; [reflexivity | exact Hall] | exact Hinit].
      * right. split; [constructor; [reflexivity | exact Hall] | exact Hinit].
      * left. exists [], d, dets. injection Hinit as <-. repeat split. exact Hall.
Qed.

Lemma bound_after_empty (dets : list prediction) (init : option detections) :
  Forall empty_pred dets -> bound_after init dets = init.
Proof.
  intros H. revert init. induction H as [|pred dets Hp _ IH]; intros init;
    [reflexivity |].
  unfold bound_after in *. simpl.
  destruct pred; [apply IH | apply IH | discriminate Hp].
Qed.

Lemma imwrite_returns (p : string) (im : image) (w : world) :
  has_encoder p = true -> exists w' b, imwrite p (Some im) w = (w', Ok b).
Proof.
  intros He. unfold imwrite. rewrite He.
  destruct (takes_colour p && dir_exists w p); eauto.
  destruct (fs w !! p) as [[|pm d]|]; eauto.
  destruct (can_write pm); eauto.
Qed.

(** Over predictions that are all empty the loop comes to its end, with
    the variables as they were, when [cv2.imwrite] has an image and an
    encoder to work with. *)
Lemma empty_loop_completes (args : Args) (path : string) (t : Q) (dets : list prediction) :
  Forall empty_pred dets ->
  forall (vars : loop_vars) (w : world),
  (save_img args = true ->
   (exists im, v_img vars = Some im) /\ has_encoder (img_file args path) = true) ->
  exists w', foldM (prediction_step args path t) vars dets w = (w', Ok vars).
Proof.
  induction 1 as [|pred dets Hp Hall IH]; intros vars w Hsafe.
  - now exists w.
  - simpl. unfold bind at 1. unfold prediction_step at 1. rewrite Hp.
    unfold bind at 1. simpl. unfold bind at 1. simpl.
    destruct (save_img args) eqn:Hi.
    + destruct (Hsafe eq_refl) as [[im Him] He]. rewrite Him.
      unfold bind at 1. unfold bind at 1.
      fold (img_file args path).
      match goal with
      | |- context [imwrite ?p (Some im) ?w0] =>
          destruct (imwrite_returns p im w0 He) as (w1 & b & ->)
      end.
      simpl. apply IH. intros _. split; [now exists im | exact He].
    + unfold bind at 1. simpl. apply IH. intros [=].
Qed.

(** [overlay_boxes] is its loop followed by its [return]. *)
Lemma overlay_boxes_unfold (dets : list prediction) (path : string) (t : Q)
    (args : Args) (w : world) :
  exists img,
    (save_img args = true -> snd (imread path w) = Ok img)
    /\ overlay_boxes dets path t args w
       = match foldM (prediction_step args path t)
                 {| v_img := img; v_bound := None |} dets w with
         | (w', Ok vars) =>
             match v_bound vars with
             | Some b => (w', Ok (map box_tolist (boxes b), scores b, labels b))
             | None => (w', Raise UnboundLocalError)
             end
         | (w', Raise e) => (w', Raise e)
         end.
Proof.
  unfold overlay_boxes. unfold bind at 1.
  set (m := if save_img args then imread path else ret None).
  assert (Hm : exists img, m w = (w, Ok img)
                           /\ (save_img args = true -> snd (imread path w) = Ok img)).
  { unfold m. destruct (save_img args); [| exists None; split; [reflexivity | discriminate]].
    unfold imread. destruct (fs w !! path) as [[|pm [b|im tl]]|]; eauto.
    destruct (can_read pm); eauto. }
  destruct Hm as (img & -> & Hrd). exists img. split; [exact Hrd |]. unfold bind.
  destruct (foldM _ _ dets w) as [w' [vars|e]]; [| reflexivity].
  destruct (v_bound vars); reflexivity.
Qed.

Lemma imwrite_raises_cv2 (p : string) (img : option image) (w : world) :
  img = None \/ has_encoder p = false -> imwrite p img w = (w, Raise Cv2Error).
Proof.
  unfold imwrite. intros [->|He]; [reflexivity |].
  destruct img; [now rewrite He | reflexivity].
Qed.

(** An empty prediction goes through an iteration that saves the image
    only as far as [cv2.imwrite], when that has no image or no encoder:
    the line is printed, and nothing else is done. *)
Lemma empty_step_raises (args : Args) (path : string) (t : Q)
    (vars : loop_vars) (pred : prediction) (w : world) :
  empty_pred pred ->
  save_img args = true ->
  v_img vars = None \/ has_encoder (img_file args path) = false ->
  prediction_step args path t vars pred w
  = ({| fs := fs w; stdout := stdout w ++ ["Done. (" ++ fmt_f 3 t ++ "s)"] |},
     Raise Cv2Error).
Proof.
  intros Hp Hi Hno. unfold prediction_step. rewrite Hp, Hi.
  unfold bind at 1. simpl. unfold bind at 1. simpl.
  unfold bind at 1. unfold bind at 1.
  fold (img_file args path). now rewrite imwrite_raises_cv2.
Qed.

(** C8: when every prediction is [None] or empty, and so when there is
    none, [overlay_boxes] never returns a result.  What it raises is the
    error of its [return] statement, where [boxes] is not bound, except
    when the call saves the image, there is a prediction, and
    [cv2.imwrite] has no image or no encoder: then the first iteration of
    the loop prints its line and raises the error of [cv2], and the
    [return] statement is not reached.  A call returns only when some
    prediction is not empty, and then the rounded boxes, the scores and
    the labels of the last such prediction. *)
Theorem overlay_boxes_needs_a_prediction (dets : list prediction) (path : string)
    (t : Q) (args : Args) (w : world) :
  (Forall empty_pred dets ->
   (forall r, snd (overlay_boxes dets path t args w) <> Ok r)
   /\ (dets <> [] -> imwrite_raises args path w ->
       overlay_boxes dets path t args w
       = ({| fs := fs w; stdout := stdout w ++ ["Done. (" ++ fmt_f 3 t ++ "s)"] |},
          Raise Cv2Error))
   /\ (dets = [] \/ ~ imwrite_raises args path w ->
       snd (overlay_boxes dets path t args w) = Raise UnboundLocalError))
  /\ (forall r,
        snd (overlay_boxes dets path t args w) = Ok r ->
        exists pre d post,
          dets = (pre ++ Dict d :: post)%list
          /\ Forall empty_pred post
          /\ r = (map box_tolist (map round_box (boxes d)), scores d, labels d)).
Proof.
  destruct (overlay_boxes_unfold dets path t args w) as (img & Hrd & ->).
  set (vars0 := {| v_img := img; v_bound := None |}).
  assert (Hend : Forall empty_pred dets ->
          forall w' vars1,
            foldM (prediction_step args path t) vars0 dets w = (w', Ok vars1) ->
            v_bound vars1 = None).
  { intros Hall w' vars1 E. apply prediction_loop_bound in E.
    now rewrite bound_after_empty in E by assumption. }
  split; [intros Hall; split; [| split] |].
  - intros r Hr.
    destruct (foldM (prediction_step args path t) vars0 dets w)
      as [w' [vars1|e]] eqn:E; [| discriminate].
    rewrite (Hend Hall w' vars1 eq_refl) in Hr. discriminate.
  - intros Hne [Hi Hno]. destruct dets as [|pred dets]; [congruence |].
    simpl. unfold bind at 1.
    rewrite empty_step_raises; [reflexivity | now inversion Hall | exact Hi |].
    destruct Hno as [Hnone|He]; [left | now right].
    rewrite (Hrd Hi) in Hnone. simpl. now injection Hnone as ->.
  - intros Hsafe. destruct dets as [|pred dets]; [reflexivity |].
    destruct Hsafe as [[=]|Hsafe].
    destruct (empty_loop_completes args path t (pred :: dets) Hall vars0 w) as [w' E].
    { intros Hi. simpl.
      destruct (has_encoder (img_file args path)) eqn:He;
        [| exfalso; apply Hsafe; split; [exact Hi | now right]].
      split; [| reflexivity].
      destruct img as [im|]; [now exists im |].
      exfalso. apply Hsafe. split; [exact Hi | left; exact (Hrd Hi)]. }
    rewrite E. reflexivity.
  - intros r Hr.
    destruct (foldM (prediction_step args path t) vars0 dets w)
      as [w' [vars1|e]] eqn:E; [| discriminate].
    apply prediction_loop_bound in E. simpl in E.
    destruct (v_bound vars1) as [b|] eqn:Eb; [| discriminate].
    injection Hr as <-. symmetry in E.
    apply bound_after_Some in E as [(pre & d & post & -> & Hpost & ->)|[_ ?]];
      [| discriminate].
    exists pre, d, post. repeat split. exact Hpost.
Qed.

(** C8 as it is worded fails on two predictions without
    detections and an input that is not there: the call raises the error
    of [cv2] in its first iteration, after one line of output, and not
    the error of its [return] statement. *)
Lemma empty_predictions_raise_in_the_loop :
  Forall empty_pred [PyNone; EmptyDict]
  /\ snd void_call = Raise Cv2Error
  /\ snd void_call <> Raise UnboundLocalError
  /\ stdout (fst void_call) = ["Done. (0.042s)"].
Proof.
  split; [repeat constructor |].
  split; [vm_compute; reflexivity |].
  split; [vm_compute; discriminate | vm_compute; reflexivity].
Qed.

(** ** Indexing *)

Lemma py_index_nonneg {A} (l : list A) (i : Z) :
  0 <= i < Z.of_nat (length l) ->
  exists x, l !! Z.to_nat i = Some x /\ py_index l i = Ok x.
Proof.
  intros Hi. unfold py_index.
  assert ((i <? 0) = false) as -> by lia.
  assert ((0 <=? i) && (i <? Z.of_nat (length l)) = true) as ->
    by (apply andb_true_iff; split; lia).
  destruct (l !! Z.to_nat i) as [x|] eqn:E; [eauto |].
  apply lookup_ge_None in E. lia.
Qed.

Lemma py_index_beyond {A} (l : list A) (i : Z) :
  Z.of_nat (length l) <= i -> py_index l i = Raise IndexError.
Proof.
  intros Hi. unfold py_index.
  assert ((i <? 0) = false) as -> by lia.
  assert ((i <? Z.of_nat (length l)) = false) as -> by lia.
  now rewrite andb_false_r.
Qed.

(** C10: with [save_img] set and a colour list that is not empty, the
    colour of a detection is looked up at its class id modulo the length
    of the list: the lookup succeeds for every class id that is not
    negative, also beyond the length of the list, and the box is drawn in
    that colour when the class has a name; the name is looked up at the
    class id itself, and a class id beyond the names raises. *)
Theorem color_lookup_wraps_around (args : Args) (im : image) (xyxy : box)
    (conf : Q) (cls_name : Z) (w : world) :
  save_img args = true ->
  colors args <> [] ->
  0 <= cls_name ->
  (exists color,
     colors args !! Z.to_nat (cls_name mod Z.of_nat (length (colors args))) = Some color
     /\ forall nm,
          py_index (names args) cls_name = Ok nm ->
          draw_box args (Some im) xyxy conf cls_name w
          = (w, Ok (Some {| im_pixels := im_pixels im;
                            im_drawn := im_drawn im ++
                              [{| ov_box := xyxy;
                                  ov_label := (nm ++ " " ++ fmt_f 2 conf)%string;
                                  ov_color := color;
                                  ov_thickness := 3 |}] |})))
  /\ (Z.of_nat (length (names args)) <= cls_name ->
      draw_box args (Some im) xyxy conf cls_name w = (w, Raise IndexError)).
Proof.
  intros Hi Hc Hcls.
  assert (Hlen : 0 < Z.of_nat (length (colors args))).
  { destruct (colors args); [congruence | simpl; lia]. }
  split.
  - destruct (py_index_nonneg (colors args)
                (cls_name mod Z.of_nat (length (colors args))))
      as (color & Hl & Hix); [apply Z.mod_pos_bound; exact Hlen |].
    exists color. split; [exact Hl |]. intros nm Hnm.
    unfold draw_box, bind, lift, py_mod. rewrite Hi, Hnm.
    assert ((Z.of_nat (length (colors args)) =? 0) = false) as -> by lia.
    now rewrite Hix.
  - intros Hbeyond. unfold draw_box, bind, lift. rewrite Hi.
    now rewrite py_index_beyond.
Qed.

(** ** Runs that come to their end *)


Lemma bind_eq {A B} (m : M A) (k : A -> M B) (w w1 : world) (a : A) :
  m w = (w1, Ok a) -> bind m k w = k a w1.
Proof. intros H. unfold bind. now rewrite H. Qed.






(** ** The theorems at work on a concrete run *)

Lemma demo_step_returns :
  prediction_step demo_args demo_path 0.0421%Q demo_vars (Dict demo_det) demo_world
  = (demo_world', Ok demo_vars').
Proof. vm_compute. reflexivity. Qed.


Lemma overlay_writes_only_what_is_asked_witness :
  fs (fst (overlay_boxes [Dict demo_det] demo_path 0.0421%Q quiet_args demo_world))
  = fs demo_world.
Proof.
  apply (overlay_writes_only_what_is_asked [Dict demo_det] demo_path 0.0421%Q
           quiet_args demo_world); reflexivity.
Defined.


Lemma overlay_boxes_needs_a_prediction_witness :
  snd (overlay_boxes [PyNone; EmptyDict] demo_path 0.0421%Q demo_args demo_world)
  = Raise UnboundLocalError.
Proof.
  apply (overlay_boxes_needs_a_prediction [PyNone; EmptyDict] demo_path 0.0421%Q
           demo_args demo_world).
  - repeat constructor.
  - right. intros [_ [H|H]]; vm_compute in H; discriminate.
Defined.


Lemma color_lookup_wraps_around_witness :
  (exists color,
     colors demo_args !! Z.to_nat (1 mod Z.of_nat (length (colors demo_args))) = Some color
     /\ forall nm,
          py_index (names demo_args) 1 = Ok nm ->
          draw_box demo_args (Some zidane) {| bx1 := 10; by1 := 20; bx2 := 30; by2 := 42 |}
            0.875%Q 1 demo_world
          = (demo_world,
             Ok (Some {| im_pixels := im_pixels zidane;
                         im_drawn := im_drawn zidane ++
                           [{| ov_box := {| bx1 := 10; by1 := 20; bx2 := 30; by2 := 42 |};
                               ov_label := (nm ++ " " ++ fmt_f 2 0.875%Q)%string;
                               ov_color := color;
                               ov_thickness := 3 |}] |})))
  /\ (Z.of_nat (length (names demo_args)) <= 1 ->
      draw_box demo_args (Some zidane) {| bx1 := 10; by1 := 20; bx2 := 30; by2 := 42 |}
        0.875%Q 1 demo_world
      = (demo_world, Raise IndexError)).
Proof.
  apply (color_lookup_wraps_around demo_args zidane
           {| bx1 := 10; by1 := 20; bx2 := 30; by2 := 42 |} 0.875%Q 1 demo_world).
  - reflexivity.
  - discriminate.
  - lia.
Defined.

(** * Further properties of [overlay_boxes] *)

(** ** A label without a name *)

Lemma py_index_raises_IndexError {A} (l : list A) (i : Z) (e : exn) :
  py_index l i = Raise e -> e = IndexError.
Proof.
  unfold py_index. destruct (_ && _); [| now intros [= <-]].
  destruct (l !! _); [discriminate | now intros [= <-]].
Qed.

Lemma py_index_out_of_range {A} (l : list A) (i : Z) :
  ~ (- Z.of_nat (length l) <= i < Z.of_nat (length l)) ->
  py_index l i = Raise IndexError.
Proof.
  intros Hi. unfold py_index.
  set (j := if i <? 0 then i + Z.of_nat (length l) else i).
  assert (Hj : (0 <=? j) && (j <? Z.of_nat (length l)) = false).
  { apply andb_false_iff. unfold j. destruct (i <? 0) eqn:E; lia. }
  now rewrite Hj.
Qed.

Lemma summary_loop_missing_name (args : Args) (labels : list Z) (cs : list Z) :
  Exists (fun c => ~ named args c) cs ->
  forall (logs : string) (w : world),
  foldM (summary_step args labels) logs cs w = (w, Raise IndexError).
Proof.
  induction cs as [|c cs IH]; intros H logs w; [inversion H |].
  simpl. unfold bind at 1. unfold summary_step at 1, bind, lift, ret.
  destruct (py_index (names args) c) as [nm|e] eqn:E.
  - apply IH. inversion H as [? ? Hc|]; subst; [| assumption].
    apply py_index_out_of_range in Hc. congruence.
  - now rewrite (py_index_raises_IndexError _ _ _ E).
Qed.

(** X1: when some label of a prediction has no name, the iteration
    raises [IndexError] while building the summary, before the loop over
    the detections: nothing is written, drawn or printed for the
    prediction, whatever the flags. *)
Theorem missing_name_aborts_before_any_output (args : Args) (path : string)
    (t : Q) (vars : loop_vars) (d : detections) (w : world) (c : Z) :
  In c (labels d) ->
  ~ named args c ->
  prediction_step args path t vars (Dict d) w = (w, Raise IndexError).
Proof.
  intros Hin Hc. unfold prediction_step. simpl.
  unfold bind at 1. unfold bind at 1.
  rewrite summary_loop_missing_name; [reflexivity |].
  apply List.Exists_exists. exists c. split; [| exact Hc].
  now apply unique_In.
Qed.

(** ** No image to draw on *)

Lemma draw_box_no_image (args : Args) (xyxy : box) (conf : Q) (cls_name : Z)
    (w : world) :
  save_img args = true ->
  is_ok (snd (draw_box args None xyxy conf cls_name w)) = false.
Proof.
  intros Hi. unfold draw_box, bind, lift, plot_one_box, raise. rewrite Hi.
  destruct (py_index (names args) cls_name); [| reflexivity].
  destruct (py_mod _ _); [| reflexivity].
  destruct (py_index (colors args) _); reflexivity.
Qed.

Lemma detection_loop_no_image (args : Args) (tp : Path) (l : list (box * Q * Z))
    (w w' : world) (img' : option image) :
  save_img args = true ->
  foldM (detection_step args tp) None l w = (w', Ok img') ->
  l = [] /\ img' = None.
Proof.
  intros Hi H. destruct l as [|[[xyxy conf] c] l].
  - apply ret_ok in H as [_ ->]. now split.
  - exfalso. simpl in H. bind_inv H. unfold detection_step in H0. bind_inv H0.
    pose proof (draw_box_no_image args xyxy conf c w1 Hi) as Hn.
    rewrite H0 in Hn. discriminate.
Qed.

Lemma prediction_step_no_image (args : Args) (path : string) (t : Q)
    (vars : loop_vars) (pred : prediction) (w : world) :
  save_img args = true ->
  v_img vars = None ->
  is_ok (snd (prediction_step args path t vars pred w)) = false.
Proof.
  intros Hi Hv.
  destruct (prediction_step args path t vars pred w) as [w' [vars'|e]] eqn:H;
    [| reflexivity].
  exfalso. unfold prediction_step in H. rewrite Hi in H.
  bind_inv H. bind_inv H. bind_inv H. apply ret_ok in H as [-> ->].
  bind_inv H2. apply imwrite_ok in H3 as (im & Him & _).
  assert (Hnone : v_img a.2 = None).
  { destruct pred as [| |d]; simpl in H0.
    - apply ret_ok in H0 as [_ ->]. exact Hv.
    - apply ret_ok in H0 as [_ ->]. exact Hv.
    - bind_inv H0. bind_inv H0. apply ret_ok in H0 as [_ ->]. simpl.
      rewrite Hv in H4. now apply detection_loop_no_image in H4 as [_ ->]. }
  congruence.
Qed.

(** X2: with [save_img] set and an input that [cv2.imread] cannot read,
    [overlay_boxes] never returns a result, whatever the predictions:
    there is no image to draw on or to save, and without predictions
    nothing to return. *)
Theorem unreadable_image_never_returns (dets : list prediction) (path : string)
    (t : Q) (args : Args) (w : world) :
  save_img args = true ->
  snd (imread path w) = Ok None ->
  is_ok (snd (overlay_boxes dets path t args w)) = false.
Proof.
  intros Hi Hrd.
  destruct (overlay_boxes_unfold dets path t args w) as (img & Himg & ->).
  rewrite (Himg Hi) in Hrd. injection Hrd as ->.
  destruct dets as [|pred dets]; [reflexivity |].
  simpl. unfold bind.
  pose proof (prediction_step_no_image args path t
                {| v_img := None; v_bound := None |} pred w Hi eq_refl) as Hn.
  destruct (prediction_step args path t _ pred w) as [w1 [vars1|e]];
    [discriminate | reflexivity].
Qed.

(** ** What is drawn and saved *)

Lemma draw_more_nil (im : image) : draw_more [] im = im.
Proof. destruct im. unfold draw_more. simpl. now rewrite app_nil_r. Qed.

Lemma draw_more_app (l1 l2 : list overlay) (im : image) :
  draw_more l2 (draw_more l1 im) = draw_more (l1 ++ l2) im.
Proof. unfold draw_more. simpl. now rewrite app_assoc. Qed.

Lemma py_mod_ok (a b k : Z) : py_mod a b = Ok k -> b <> 0 /\ k = a mod b.
Proof.
  unfold py_mod. destruct (b =? 0) eqn:E; [discriminate |].
  intros [= <-]. split; [lia | reflexivity].
Qed.

Lemma draw_box_ok (args : Args) (img img' : option image) (xyxy : box) (conf : Q)
    (cls_name : Z) (w w' : world) :
  save_img args = true ->
  draw_box args img xyxy conf cls_name w = (w', Ok img') ->
  exists im ov,
    img = Some im /\ drawn_as args (xyxy, conf, cls_name) ov
    /\ img' = Some (draw_more [ov] im).
Proof.
  intros Hi H. unfold draw_box in H. rewrite Hi in H.
  bind_inv H. bind_inv H. bind_inv H.
  unfold lift in *. injection H0 as _ Hnm. injection H1 as _ Hk. injection H2 as _ Hc.
  apply py_mod_ok in Hk as [Hlen ->].
  destruct (py_index_nonneg (colors args) (cls_name mod Z.of_nat (length (colors args))))
    as (color & Hl & Hix); [apply Z.mod_pos_bound; lia |].
  rewrite Hix in Hc. injection Hc as <-.
  unfold plot_one_box in H. destruct img as [im|]; [| discriminate].
  apply ret_ok in H as [_ ->].
  eexists im, _. split; [reflexivity |]. split; [| reflexivity].
  simpl. repeat split; eauto.
Qed.

Lemma detection_loop_draws (args : Args) (tp : Path) (l : list (box * Q * Z)) :
  save_img args = true ->
  forall (img img' : option image) (w w' : world),
  foldM (detection_step args tp) img l w = (w', Ok img') ->
  exists ovs,
    Forall2 (drawn_as args) l ovs /\ img' = option_map (draw_more ovs) img.
Proof.
  intros Hi. induction l as [|[[xyxy conf] c] l IH]; intros img img' w w' H.
  - apply ret_ok in H as [_ ->]. exists []. split; [constructor |].
    destruct img; simpl; [now rewrite draw_more_nil | reflexivity].
  - simpl in H. bind_inv H. unfold detection_step in H0. bind_inv H0.
    apply (draw_box_ok args) in H0 as (im & ov & -> & Hov & ->); [| exact Hi].
    apply IH in H as (ovs & Hovs & ->).
    exists (ov :: ovs). split; [now constructor |].
    simpl. now rewrite draw_more_app.
Qed.

Lemma prediction_step_draws (args : Args) (path : string) (t : Q)
    (vars vars' : loop_vars) (pred : prediction) (w w' : world) :
  save_img args = true ->
  prediction_step args path t vars pred w = (w', Ok vars') ->
  exists ovs,
    Forall2 (drawn_as args) (detections_of pred) ovs
    /\ v_img vars' = option_map (draw_more ovs) (v_img vars).
Proof.
  intros Hi H. unfold prediction_step in H.
  bind_inv H. bind_inv H. bind_inv H. apply ret_ok in H as [_ ->].
  clear H1 H2.
  assert (Hnil : exists ovs, Forall2 (drawn_as args) [] ovs
                             /\ v_img vars = option_map (draw_more ovs) (v_img vars)).
  { exists []. split; [constructor |].
    destruct (v_img vars); simpl; [now rewrite draw_more_nil | reflexivity]. }
  destruct pred as [| |d]; simpl in H0.
  - apply ret_ok in H0 as [_ ->]. exact Hnil.
  - apply ret_ok in H0 as [_ ->]. exact Hnil.
  - bind_inv H0. bind_inv H0. apply ret_ok in H0 as [_ ->].
    apply (detection_loop_draws args) in H2; [| exact Hi]. exact H2.
Qed.

Lemma Forall2_app_both {A B} (R : A -> B -> Prop) (l1 l2 : list A) (k1 k2 : list B) :
  Forall2 R l1 k1 -> Forall2 R l2 k2 -> Forall2 R (l1 ++ l2) (k1 ++ k2).
Proof. induction 1; simpl; [auto | constructor; auto]. Qed.

Lemma prediction_loop_draws (args : Args) (path : string) (t : Q) (dets : list prediction) :
  save_img args = true ->
  forall (vars vars' : loop_vars) (w w' : world),
  foldM (prediction_step args path t) vars dets w = (w', Ok vars') ->
  exists ovs,
    Forall2 (drawn_as args) (concat (map detections_of dets)) ovs
    /\ v_img vars' = option_map (draw_more ovs) (v_img vars).
Proof.
  intros Hi. induction dets as [|pred dets IH]; intros vars vars' w w' H.
  - apply ret_ok in H as [_ ->]. exists []. split; [constructor |].
    destruct (v_img vars); simpl; [now rewrite draw_more_nil | reflexivity].
  - simpl in H. bind_inv H.
    apply (prediction_step_draws args path) in H0 as (ovs1 & H1 & E1); [| exact Hi].
    apply IH in H as (ovs2 & H2 & E2).
    exists (ovs1 ++ ovs2)%list. split; [now apply Forall2_app_both |].
    rewrite E2, E1. destruct (v_img vars); simpl; [now rewrite draw_more_app | reflexivity].
Qed.

(** Nothing the loop does turns a directory into something else. *)
Lemma dirs_stay_refl (w : world) : dirs_stay w w.
Proof. intros q H. exact H. Qed.

Lemma dirs_stay_trans (w1 w2 w3 : world) :
  dirs_stay w1 w2 -> dirs_stay w2 w3 -> dirs_stay w1 w3.
Proof. intros H12 H23 q H. apply H23, H12, H. Qed.

Lemma keeps_dirs_append (p s : string) : keeps dirs_stay (append_text p s).
Proof.
  intros w q Hq. unfold append_text.
  destruct (fs w !! p) as [[|pm d]|] eqn:E; simpl; [exact Hq | |].
  - destruct (can_write pm); simpl; [| exact Hq].
    rewrite lookup_insert_ne; [exact Hq | congruence].
  - rewrite lookup_insert_ne; [exact Hq | congruence].
Qed.

Lemma keeps_dirs_imwrite (p : string) (img : option image) :
  keeps dirs_stay (imwrite p img).
Proof.
  intros w q Hq. unfold imwrite.
  destruct img as [im|]; [| exact Hq].
  destruct (has_encoder p); [| exact Hq].
  destruct (takes_colour p && dir_exists w p); [| exact Hq].
  destruct (fs w !! p) as [[|pm d]|] eqn:E; simpl; [exact Hq | |].
  - destruct (can_write pm); simpl; [| exact Hq].
    rewrite lookup_insert_ne; [exact Hq | congruence].
  - rewrite lookup_insert_ne; [exact Hq | congruence].
Qed.

Lemma keeps_dirs_detection_step (args : Args) (tp : Path) (img : option image)
    (d : box * Q * Z) :
  keeps dirs_stay (detection_step args tp img d).
Proof.
  destruct d as [[xyxy conf] c]. unfold detection_step.
  apply keeps_bind; [apply dirs_stay_trans | |].
  - unfold write_label. destruct (save_txt args);
      [apply keeps_dirs_append | apply keeps_ret, dirs_stay_refl].
  - intros _ w. rewrite draw_box_world. apply dirs_stay_refl.
Qed.

Lemma keeps_dirs_prediction_body (args : Args) (path : string) (vars : loop_vars)
    (pred : prediction) :
  keeps dirs_stay
    (if is_nonempty pred then
       match pred with
       | Dict d =>
           let bound :=
             {| boxes := map round_box (boxes d);
                scores := scores d; labels := labels d |} in
           det_logs <- foldM (summary_step args (labels bound)) ""
                         (unique (labels bound)) ;;
           img <- foldM (detection_step args
                           (joinpath (parse (output_dir args)) (stem (parse path))))
                    (v_img vars)
                    (zip3 (boxes bound) (scores bound) (labels bound)) ;;
           ret (det_logs, {| v_img := img; v_bound := Some bound |})
       | _ => ret ("", vars)
       end
     else ret ("", vars)).
Proof.
  destruct (is_nonempty pred); [| apply keeps_ret, dirs_stay_refl].
  destruct pred as [| |d]; try apply keeps_ret, dirs_stay_refl.
  apply keeps_bind; [apply dirs_stay_trans | |].
  - intros w. rewrite summary_loop_world. apply dirs_stay_refl.
  - intros logs. apply keeps_bind; [apply dirs_stay_trans | |].
    + apply keeps_foldM;
        [apply dirs_stay_refl | apply dirs_stay_trans
        | intros; apply keeps_dirs_detection_step].
    + intros img. apply keeps_ret, dirs_stay_refl.
Qed.

Lemma keeps_dirs_prediction_step (args : Args) (path : string) (t : Q)
    (vars : loop_vars) (pred : prediction) :
  keeps dirs_stay (prediction_step args path t vars pred).
Proof.
  unfold prediction_step.
  apply keeps_bind; [apply dirs_stay_trans | apply keeps_dirs_prediction_body |].
  intros r. apply keeps_bind; [apply dirs_stay_trans | |].
  - intros w q Hq. exact Hq.
  - intros _. apply keeps_bind; [apply dirs_stay_trans | |].
    + destruct (save_img args); [| apply keeps_ret, dirs_stay_refl].
      apply keeps_bind; [apply dirs_stay_trans | apply keeps_dirs_imwrite |].
      intros b. apply keeps_ret, dirs_stay_refl.
    + intros _. apply keeps_ret, dirs_stay_refl.
Qed.

Lemma dir_exists_stays (w w' : world) (p : string) :
  dirs_stay w w' -> dir_exists w p = true -> dir_exists w' p = true.
Proof.
  intros Hs. unfold dir_exists.
  destruct (parts (parent (parse p))); [reflexivity |].
  destruct (fs w !! str (parent (parse p))) as [[|pm d]|] eqn:E; try discriminate.
  now rewrite (Hs _ E).
Qed.

Lemma imwrite_ok_writable (p : string) (img : option image) (w w' : world) (b : bool) :
  imwrite p img w = (w', Ok b) ->
  can_save w p ->
  exists im pm,
    img = Some im /\ has_encoder p = true
    /\ fs w' !! p = Some (File pm (Picture im "")) /\ can_write pm = true.
Proof.
  unfold imwrite. destruct img as [im|]; [| discriminate].
  destruct (has_encoder p); [| discriminate].
  intros H (Hc & Hd & [Hn|(pm & d & Hf & Hw)]); rewrite Hc, Hd in H; simpl in H.
  - rewrite Hn in H. injection H as <- _. exists im, rw. simpl.
    rewrite lookup_insert_eq. repeat split.
  - rewrite Hf, Hw in H. injection H as <- _. exists im, pm. simpl.
    rewrite lookup_insert_eq. repeat split. exact Hw.
Qed.

Lemma prediction_step_saves (args : Args) (path : string) (t : Q)
    (vars vars' : loop_vars) (pred : prediction) (w w' : world) :
  save_img args = true ->
  can_save w (img_file args path) ->
  prediction_step args path t vars pred w = (w', Ok vars') ->
  exists im pm,
    v_img vars' = Some im
    /\ fs w' !! img_file args path = Some (File pm (Picture im ""))
    /\ can_write pm = true.
Proof.
  intros Hi (Hc & Hd & Hhold) H. unfold prediction_step in H. rewrite Hi in H.
  bind_inv H. bind_inv H. bind_inv H. apply ret_ok in H as [-> ->].
  bind_inv H2. apply ret_ok in H2 as [-> _].
  fold (img_file args path) in H3.
  assert (He : has_encoder (img_file args path) = true).
  { now apply imwrite_ok in H3 as (im & _ & He). }
  assert (Hne : img_file args path <> txt_file args path).
  { intros E. rewrite E in He. unfold txt_file in He.
    rewrite no_encoder_txt in He. discriminate. }
  assert (Hdirs : dirs_stay w w1).
  { unfold print in H1. injection H1 as <- _.
    pose proof (keeps_dirs_prediction_body args path vars pred w) as Hb.
    simpl in Hb, H0. rewrite H0 in Hb. exact Hb. }
  assert (Hsame : fs w1 !! img_file args path = fs w !! img_file args path).
  { unfold print in H1. injection H1 as <- _. simpl.
    destruct pred as [| |d]; simpl in H0; try (now apply ret_ok in H0 as [-> _]).
    bind_inv H0. bind_inv H0. apply ret_ok in H0 as [-> _].
    pose proof (summary_loop_world args (labels d) (unique (labels d)) "" w) as Hs.
    rewrite H1 in Hs. simpl in Hs. subst w1.
    match type of H2 with
    | foldM _ ?im0 ?l _ = _ =>
        pose proof (detection_loop_other args path l im0 w (img_file args path) Hne) as Hd'
    end.
    now rewrite H2 in Hd'. }
  rewrite <- Hsame in Hhold.
  apply imwrite_ok_writable in H3 as (im & pm & Him & _ & Hf & Hw).
  - exists im, pm. repeat split; assumption.
  - repeat split; [exact Hc | | exact Hhold].
    now apply (dir_exists_stays w).
Qed.

Lemma prediction_loop_saves (args : Args) (path : string) (t : Q) (dets : list prediction) :
  save_img args = true ->
  forall (vars vars' : loop_vars) (w w' : world),
  can_save w (img_file args path) ->
  foldM (prediction_step args path t) vars dets w = (w', Ok vars') ->
  dets <> [] ->
  exists im pm,
    v_img vars' = Some im
    /\ fs w' !! img_file args path = Some (File pm (Picture im ""))
    /\ can_write pm = true.
Proof.
  intros Hi. induction dets as [|pred dets IH]; intros vars vars' w w' Hsave H Hne;
    [congruence |].
  simpl in H. bind_inv H.
  pose proof (keeps_dirs_prediction_step args path t vars pred w) as Hdirs.
  rewrite H0 in Hdirs. simpl in Hdirs.
  pose proof H0 as Hstep.
  apply (prediction_step_saves args path) in H0 as (im1 & pm1 & Hv1 & Hf1 & Hw1);
    [| exact Hi | exact Hsave].
  destruct dets as [|pred' dets].
  - apply ret_ok in H as [-> ->]. now exists im1, pm1.
  - eapply IH; [| exact H | discriminate].
    destruct Hsave as (Hc & Hd & _). repeat split; [exact Hc | |].
    + now apply (dir_exists_stays w).
    + right. now exists pm1, (Picture im1 "").
Qed.



(** X3: with [save_img] set, when [overlay_boxes] returns and
    [cv2.imwrite] could save the image file, the image file holds the input image with
    exactly one drawing per detection of all predictions, in their order,
    and nothing else: for each detection its rounded box, the name of its
    class with the confidence to two decimals, the colour at its class id
    modulo the number of colours, and thickness 3. *)
Theorem saved_image_shows_each_detection_once (dets : list prediction)
    (path : string) (t : Q) (args : Args) (w w' : world)
    (r : list (list Q) * list Q * list Z) :
  save_img args = true ->
  can_save w (img_file args path) ->
  overlay_boxes dets path t args w = (w', Ok r) ->
  exists im pm ovs,
    snd (imread path w) = Ok (Some im)
    /\ Forall2 (drawn_as args) (concat (map detections_of dets)) ovs
    /\ fs w' !! img_file args path
       = Some (File pm (Picture (draw_more ovs im) "")).
Proof.
  intros Hi Hhold H.
  destruct (overlay_boxes_unfold dets path t args w) as (img & Himg & E).
  rewrite E in H. clear E.
  destruct (foldM _ _ dets w) as [w1 [vars1|e]] eqn:El; [| discriminate].
  assert (w1 = w') as -> by (destruct (v_bound vars1); now injection H as ->).
  assert (Hne : dets <> []).
  { intros ->. apply ret_ok in El as [_ ->]. simpl in H. discriminate. }
  destruct (prediction_loop_draws args path t dets Hi _ _ _ _ El) as (ovs & Hovs & Ev).
  destruct (prediction_loop_saves args path t dets Hi _ _ _ _ Hhold El Hne)
    as (im' & pm & Hv & Hf & _).
  simpl in Ev. rewrite Hv in Ev. destruct img as [im|]; [| discriminate].
  injection Ev as ->. exists im, pm, ovs.
  split; [now apply Himg | split; assumption].
Qed.

(** ** What can be raised *)

Section RaisesOnly.
Variable P : exn -> Prop.

Lemma raises_only_ret {A} (a : A) : raises_only P (ret a).
Proof. intros w e H. discriminate H. Qed.

Lemma raises_only_bind {A B} (m : M A) (k : A -> M B) :
  raises_only P m -> (forall a, raises_only P (k a)) -> raises_only P (bind m k).
Proof.
  intros Hm Hk w e. unfold bind. specialize (Hm w).
  destruct (m w) as [w1 [a|e1]]; simpl in *; [apply Hk | intros [= <-]; now apply Hm].
Qed.

Lemma raises_only_foldM {A B} (body : A -> B -> M A) (l : list B) :
  (forall a x, raises_only P (body a x)) -> forall a, raises_only P (foldM body a l).
Proof.
  intros Hb. induction l as [|x l IH]; intros a; simpl.
  - apply raises_only_ret.
  - apply raises_only_bind; [apply Hb | intros a'; apply IH].
Qed.

Lemma raises_only_lift {A} (r : result A) :
  (forall e, r = Raise e -> P e) -> raises_only P (lift r).
Proof. intros H w e. simpl. apply H. Qed.

Lemma raises_only_print (s : string) : raises_only P (print s).
Proof. intros w e H. discriminate H. Qed.

End RaisesOnly.

Lemma raises_only_append (P : exn -> Prop) (p s : string) :
  P IsADirectoryError -> P PermissionError -> raises_only P (append_text p s).
Proof.
  intros Hd Hp w e. unfold append_text.
  destruct (fs w !! p) as [[|pm d]|]; simpl; try discriminate.
  - now intros [= <-].
  - destruct (can_write pm); simpl; [discriminate | now intros [= <-]].
Qed.

Lemma raises_only_imwrite (P : exn -> Prop) (p : string) (img : option image) :
  P Cv2Error -> raises_only P (imwrite p img).
Proof.
  intros Hc w e. unfold imwrite. destruct img; [| now intros [= <-]].
  destruct (has_encoder p); [| now intros [= <-]].
  destruct (takes_colour p && dir_exists w p); [| discriminate].
  destruct (fs w !! p) as [[|pm d]|]; simpl; try discriminate.
  destruct (can_write pm); discriminate.
Qed.

Lemma raises_only_plot (P : exn -> Prop) (xyxy : box) (img : option image)
    (label : string) (color : list Z) (th : Z) :
  P Cv2Error -> raises_only P (plot_one_box xyxy img label color th).
Proof. intros Hc w e. destruct img; simpl; [discriminate | now intros [= <-]]. Qed.

Lemma raises_only_summary_step (P : exn -> Prop) (args : Args) (labels : list Z)
    (logs : string) (c : Z) :
  P IndexError -> raises_only P (summary_step args labels logs c).
Proof.
  intros Hi. unfold summary_step. apply raises_only_bind; [| intros; apply raises_only_ret].
  apply raises_only_lift. intros e He.
  now rewrite (py_index_raises_IndexError _ _ _ He).
Qed.

(** The loop body with the exceptions of its parts: [P] has to hold of
    [IndexError] always, of the errors of appending when [save_txt] is
    set, and of those of drawing and saving when [save_img] is set, where
    a division by zero needs an empty colour list beside a name. *)
Lemma raises_only_prediction_step (P : exn -> Prop) (args : Args) (path : string)
    (t : Q) (vars : loop_vars) (pred : prediction) :
  P IndexError ->
  (save_txt args = true -> P IsADirectoryError /\ P PermissionError) ->
  (save_img args = true -> P Cv2Error) ->
  (save_img args = true -> colors args = [] -> names args <> [] -> P ZeroDivisionError) ->
  raises_only P (prediction_step args path t vars pred).
Proof.
  intros Hix Htxt Hcv Hzd. unfold prediction_step.
  apply raises_only_bind.
  - destruct pred as [| |d]; simpl; try apply raises_only_ret.
    apply raises_only_bind.
    { apply raises_only_foldM. intros. now apply raises_only_summary_step. }
    intros logs. apply raises_only_bind; [| intros; apply raises_only_ret].
    apply raises_only_foldM. intros img [[xyxy conf] c]. unfold detection_step.
    apply raises_only_bind.
    + unfold write_label. destruct (save_txt args) eqn:Ht; [| apply raises_only_ret].
      destruct (Htxt eq_refl). now apply raises_only_append.
    + intros _. unfold draw_box. destruct (save_img args) eqn:Hi; [| apply raises_only_ret].
      intros w e. unfold bind, lift.
      destruct (py_index (names args) c) as [nm|e1] eqn:E1; simpl.
      2:{ intros [= <-]. now rewrite (py_index_raises_IndexError _ _ _ E1). }
      destruct (py_mod c (Z.of_nat (length (colors args)))) as [k|e2] eqn:E2; simpl.
      2:{ intros [= <-]. unfold py_mod in E2.
          destruct (_ =? 0) eqn:Z0; [| discriminate]. injection E2 as <-.
          apply Hzd; [reflexivity | | ].
          - destruct (colors args); [reflexivity | simpl in Z0; lia].
          - intros Hn. rewrite Hn in E1. unfold py_index in E1. simpl in E1.
            destruct (c <? 0); simpl in E1;
              rewrite ?andb_false_r in E1;
              destruct (_ && _) in E1; discriminate. }
      destruct (py_index (colors args) k) as [color|e3] eqn:E3; simpl.
      2:{ intros [= <-]. now rewrite (py_index_raises_IndexError _ _ _ E3). }
      apply (raises_only_plot P); auto.
  - intros r. apply raises_only_bind; [apply raises_only_print | intros _].
    apply raises_only_bind; [| intros; apply raises_only_ret].
    destruct (save_img args) eqn:Hi; [| apply raises_only_ret].
    apply raises_only_bind; [| intros; apply raises_only_ret].
    apply raises_only_imwrite. auto.
Qed.

Lemma raises_only_loop (P : exn -> Prop) (args : Args) (path : string)
    (t : Q) (dets : list prediction) (vars : loop_vars) :
  P IndexError ->
  (save_txt args = true -> P IsADirectoryError /\ P PermissionError) ->
  (save_img args = true -> P Cv2Error) ->
  (save_img args = true -> colors args = [] -> names args <> [] -> P ZeroDivisionError) ->
  raises_only P (foldM (prediction_step args path t) vars dets).
Proof.
  intros. apply raises_only_foldM. intros. now apply raises_only_prediction_step.
Qed.

(** What [overlay_boxes] raises is raised by its loop or is the
    [UnboundLocalError] of its [return]. *)
Lemma overlay_boxes_raises (dets : list prediction) (path : string) (t : Q)
    (args : Args) (w : world) (e : exn) :
  snd (overlay_boxes dets path t args w) = Raise e ->
  (exists img, snd (foldM (prediction_step args path t)
                      {| v_img := img; v_bound := None |} dets w) = Raise e)
  \/ (e = UnboundLocalError
      /\ exists img w' vars,
           foldM (prediction_step args path t)
             {| v_img := img; v_bound := None |} dets w = (w', Ok vars)
           /\ fst (overlay_boxes dets path t args w) = w').
Proof.
  destruct (overlay_boxes_unfold dets path t args w) as (img & _ & ->).
  destruct (foldM _ _ dets w) as [w' [vars|e']] eqn:E; simpl.
  - destruct (v_bound vars); simpl; [discriminate |].
    intros [= <-]. right. split; [reflexivity |]. now exists img, w', vars.
  - intros [= <-]. left. exists img. now rewrite E.
Qed.

(** X4: with neither [save_txt] nor [save_img], the only exceptions of
    [overlay_boxes] are the [IndexError] of a label without a name and
    the [UnboundLocalError] of its [return]. *)
Theorem quiet_overlay_raises_two_errors (dets : list prediction) (path : string)
    (t : Q) (args : Args) (w : world) (e : exn) :
  save_txt args = false ->
  save_img args = false ->
  snd (overlay_boxes dets path t args w) = Raise e ->
  e = IndexError \/ e = UnboundLocalError.
Proof.
  intros Ht Hi H. apply overlay_boxes_raises in H as [[img H]|[-> _]]; [| now right].
  left.
  refine (raises_only_loop (fun e => e = IndexError) args path t dets _
            eq_refl _ _ _ w e H); congruence.
Qed.

(** X5: when there are as many colours as names, as [main] makes them,
    [overlay_boxes] never divides by zero: a colour is only looked up
    for a class that has a name. *)
Theorem colours_like_names_no_division_by_zero (dets : list prediction)
    (path : string) (t : Q) (args : Args) (w : world) :
  length (colors args) = length (names args) ->
  snd (overlay_boxes dets path t args w) <> Raise ZeroDivisionError.
Proof.
  intros Hlen H. apply overlay_boxes_raises in H as [[img H]|[? _]]; [| discriminate].
  refine (raises_only_loop (fun e => e <> ZeroDivisionError) args path t dets _
            _ _ _ _ w ZeroDivisionError H eq_refl); try discriminate.
  - intros _. split; discriminate.
  - intros _ Hc Hn. rewrite Hc in Hlen. destruct (names args); [congruence | discriminate].
Qed.

(** ** What is printed *)

Lemma prediction_step_prints (args : Args) (path : string) (t : Q)
    (vars vars' : loop_vars) (pred : prediction) (w w' : world) :
  prediction_step args path t vars pred w = (w', Ok vars') ->
  exists l, stdout w' = (stdout w ++ [l])%list /\ printed_for t pred l.
Proof.
  intros H. unfold prediction_step in H.
  bind_inv H. bind_inv H. bind_inv H. apply ret_ok in H as [-> _].
  assert (Hw2 : stdout w2 = stdout w1).
  { destruct (save_img args); [| now apply ret_ok in H2 as [-> _]].
    bind_inv H2. apply ret_ok in H2 as [-> _].
    pose proof (imwrite_stdout
                  (str (joinpath (parse (output_dir args)) (name (parse path))))
                  (v_img a.2) w1) as Hk.
    now rewrite H3 in Hk. }
  unfold print in H1. injection H1 as <- _. simpl in Hw2. rewrite Hw2. clear Hw2 H2.
  exists (a.1 ++ "Done. (" ++ fmt_f 3 t ++ "s)").
  destruct pred as [| |d]; simpl in H0.
  - apply ret_ok in H0 as [-> ->]. split; [reflexivity |]. now exists "".
  - apply ret_ok in H0 as [-> ->]. split; [reflexivity |]. now exists "".
  - bind_inv H0. bind_inv H0. apply ret_ok in H0 as [-> ->].
    pose proof (summary_loop_world args (labels d) (unique (labels d)) "" w) as Hs.
    rewrite H1 in Hs. simpl in Hs. subst w1.
    match type of H2 with
    | foldM (detection_step _ ?tp) ?im ?l _ = _ =>
        pose proof (detection_loop_stdout args tp l im w) as Hd
    end.
    rewrite H2 in Hd. simpl in Hd. rewrite Hd. split; [reflexivity |].
    exists a2. split; [reflexivity |]. intros He. discriminate He.
Qed.

Lemma prediction_loop_prints (args : Args) (path : string) (t : Q) (dets : list prediction) :
  forall (vars vars' : loop_vars) (w w' : world),
  foldM (prediction_step args path t) vars dets w = (w', Ok vars') ->
  exists ls, stdout w' = (stdout w ++ ls)%list /\ Forall2 (printed_for t) dets ls.
Proof.
  induction dets as [|pred dets IH]; intros vars vars' w w' H.
  - apply ret_ok in H as [-> _]. exists []. split; [now rewrite app_nil_r | constructor].
  - simpl in H. bind_inv H.
    apply prediction_step_prints in H0 as (l & E1 & Hl).
    apply IH in H as (ls & E2 & Hls).
    exists (l :: ls). split; [| now constructor].
    rewrite E2, E1. now rewrite <- app_assoc.
Qed.

(** X6: a call of [overlay_boxes] that comes to its [return], whether it
    returns or raises there, has printed exactly one line per prediction,
    in their order: the summary of the prediction, which is empty for a
    prediction that is [None] or empty, followed by ["Done. (<t>s)"] with
    the time to three decimals. *)
Theorem one_line_printed_per_prediction (dets : list prediction) (path : string)
    (t : Q) (args : Args) (w : world) :
  is_ok (snd (overlay_boxes dets path t args w)) = true
  \/ snd (overlay_boxes dets path t args w) = Raise UnboundLocalError ->
  exists ls,
    stdout (fst (overlay_boxes dets path t args w)) = (stdout w ++ ls)%list
    /\ Forall2 (printed_for t) dets ls.
Proof.
  intros H.
  assert (Hloop : exists img w' vars,
            foldM (prediction_step args path t)
              {| v_img := img; v_bound := None |} dets w = (w', Ok vars)
            /\ fst (overlay_boxes dets path t args w) = w').
  { destruct H as [H|H].
    - destruct (overlay_boxes_unfold dets path t args w) as (img & _ & E).
      rewrite E in *. exists img.
      destruct (foldM _ _ dets w) as [w' [vars|e]]; [| discriminate].
      exists w', vars. split; [reflexivity |]. now destruct (v_bound vars).
    - apply overlay_boxes_raises in H as [[img H]|[_ H]]; [| exact H].
      exfalso.
      refine (raises_only_loop (fun e => e <> UnboundLocalError) args path t dets _
                _ _ _ _ w UnboundLocalError H eq_refl); try discriminate.
      intros _. split; discriminate. }
  destruct Hloop as (img & w' & vars & Hl & ->).
  now apply prediction_loop_prints in Hl.
Qed.

(** ** The text file over several and over failing calls *)


Lemma append_text_raises (p s : string) (w w' : world) (e : exn) :
  append_text p s w = (w', Raise e) -> w' = w.
Proof.
  unfold append_text. destruct (fs w !! p) as [[|pm d]|]; try discriminate.
  - now intros [= <-].
  - destruct (can_write pm); [discriminate | now intros [= <-]].
Qed.

Lemma detection_loop_prefix (args : Args) (path : string) (l : list (box * Q * Z)) :
  save_txt args = true ->
  forall (img : option image) (w : world),
  exists k,
    (k <= length l)%nat
    /\ appended (fs w !! txt_file args path)
         (fs (fst (foldM (detection_step args
                            (joinpath (parse (output_dir args)) (stem (parse path))))
                     img l w)) !! txt_file args path)
         (Text.join (take k (map (fun '(xyxy, _, cls_name) =>
                                    label_line cls_name (box_convert_xyxy_cxcywh xyxy)) l))).
Proof.
  intros Ht. induction l as [|[[xyxy conf] c] l IH]; intros img w.
  - exists 0%nat. split; [reflexivity | apply appended_refl].
  - simpl foldM. unfold bind at 1. unfold detection_step at 1. unfold bind at 1.
    destruct (write_label args _ xyxy c w) as [w1 [[]|e]] eqn:Hw.
    + apply (write_label_ok args path) in Hw; [| exact Ht].
      pose proof (draw_box_world args img xyxy conf c w1) as Hd.
      destruct (draw_box args img xyxy conf c w1) as [w2 [img1|e]]; simpl in Hd; subst w2.
      * destruct (IH img1 w1) as (k & Hk & Ha).
        exists (S k). split; [simpl; lia |].
        simpl. unfold Text.join in *. simpl.
        eapply appended_trans; eassumption.
      * exists 1%nat. split; [simpl; lia |].
        simpl. unfold Text.join. simpl.
        now rewrite string_app_nil_r.
    + unfold write_label in Hw. rewrite Ht in Hw. apply append_text_raises in Hw as ->.
      exists 0%nat. split; [lia | apply appended_refl].
Qed.


Lemma bind_raises {A B} (m : M A) (k : A -> M B) (w w' : world) (e : exn) :
  bind m k w = (w', Raise e) ->
  m w = (w', Raise e) \/ exists w1 a, m w = (w1, Ok a) /\ k a w1 = (w', Raise e).
Proof.
  unfold bind. destruct (m w) as [w1 [a|e1]]; [right; eauto |].
  intros [= <- <-]. now left.
Qed.

Lemma prediction_step_prefix (args : Args) (path : string) (t : Q)
    (vars : loop_vars) (pred : prediction) (w : world) :
  save_txt args = true ->
  exists k,
    (k <= length (written_lines pred))%nat
    /\ appended (fs w !! txt_file args path)
         (fs (fst (prediction_step args path t vars pred w)) !! txt_file args path)
         (Text.join (take k (written_lines pred))).
Proof.
  intros Ht.
  destruct (prediction_step args path t vars pred w) as [w' [vars'|e]] eqn:E.
  - exists (length (written_lines pred)). split; [lia |].
    rewrite take_ge by lia. now apply (prediction_step_ok args path t vars vars').
  - simpl. unfold prediction_step in E.
    apply bind_raises in E as [E|(w1 & r & Er & E)].
    + destruct pred as [| |d]; simpl in E; try discriminate.
      apply bind_raises in E as [E|(w0 & logs & Es & E)].
      * pose proof (summary_loop_world args (labels d) (unique (labels d)) "" w) as Hs.
        rewrite E in Hs. simpl in Hs. subst w'.
        exists 0%nat. split; [lia | apply appended_refl].
      * pose proof (summary_loop_world args (labels d) (unique (labels d)) "" w) as Hs.
        rewrite Es in Hs. simpl in Hs. subst w0.
        apply bind_raises in E as [E|(w2 & img1 & _ & E)]; [| discriminate].
        destruct (detection_loop_prefix args path
                    (zip3 (map round_box (boxes d)) (scores d) (labels d)) Ht
                    (v_img vars) w) as (k & Hk & Ha).
        simpl in E. rewrite E in Ha. simpl in Ha.
        exists k. unfold written_lines. rewrite length_map. now split.
    + exists (length (written_lines pred)). split; [lia |]. rewrite take_ge by lia.
      assert (Hr : appended (fs w !! txt_file args path) (fs w1 !! txt_file args path)
                     (Text.join (written_lines pred))).
      { destruct pred as [| |d]; simpl in Er.
        - apply ret_ok in Er as [-> _]. apply appended_refl.
        - apply ret_ok in Er as [-> _]. apply appended_refl.
        - bind_inv Er. bind_inv Er. apply ret_ok in Er as [-> _].
          pose proof (summary_loop_world args (labels d) (unique (labels d)) "" w) as Hs.
          rewrite Er0 in Hs. simpl in Hs. subst w0.
          now apply (detection_loop_ok args path) in Er1. }
      assert (Hsame : fs w' !! txt_file args path = fs w1 !! txt_file args path).
      { apply bind_raises in E as [E|(w2 & [] & Ep & E)]; [discriminate E |].
        unfold print in Ep. injection Ep as <-.
        apply bind_raises in E as [E|(w3 & [] & _ & E)]; [| discriminate E].
        destruct (save_img args); [| discriminate E].
        apply bind_raises in E as [E|(w3 & b & _ & E)]; [| discriminate E].
        pose proof (imwrite_keeps_txt args path (v_img r.2)
                      {| fs := fs w1;
                         stdout := (stdout w1 ++ [(r.1 ++ "Done. (" ++ fmt_f 3 t ++ "s)")%string])%list |})
          as Hk.
        unfold img_file in Hk. rewrite E in Hk. exact Hk. }
      now rewrite Hsame.
Qed.



(** * Further properties of [load_names] *)

(** ** White space *)

Lemma lstrip_keeps (c : ascii) (r : string) :
  Text.isspace c = false -> Text.lstrip (String c r) = String c r.
Proof. intros H. simpl. now rewrite H. Qed.

Lemma rstrip_keeps_head (c : ascii) (r : string) :
  Text.isspace c = false -> exists r', Text.rstrip (String c r) = String c r'.
Proof.
  intros H. simpl. destruct (Text.rstrip r); [rewrite H |]; eauto.
Qed.

Lemma rstrip_idem (s : string) : Text.rstrip (Text.rstrip s) = Text.rstrip s.
Proof.
  induction s as [|c s IH]; [reflexivity |]. simpl.
  destruct (Text.rstrip s) as [|c' r'] eqn:E.
  - destruct (Text.isspace c) eqn:Ec; [reflexivity |]. simpl. now rewrite Ec.
  - change (Text.rstrip (String c (String c' r'))) with
      (match Text.rstrip (String c' r') with
       | EmptyString => if Text.isspace c then EmptyString else String c EmptyString
       | r'' => String c r''
       end).
    now rewrite IH.
Qed.

Lemma lstrip_rstrip_lstrip (s : string) :
  Text.lstrip (Text.rstrip (Text.lstrip s)) = Text.rstrip (Text.lstrip s).
Proof.
  induction s as [|c s IH]; [reflexivity |]. simpl.
  destruct (Text.isspace c) eqn:Ec; [exact IH |].
  destruct (rstrip_keeps_head c s Ec) as [r' ->]. now apply lstrip_keeps.
Qed.

(** [strip] has nothing left to do on what it returns. *)
Lemma strip_idem (s : string) : Text.strip (Text.strip s) = Text.strip s.
Proof. unfold Text.strip. now rewrite lstrip_rstrip_lstrip, rstrip_idem. Qed.

Lemma isspace_LF : Text.isspace Text.LF = true.
Proof. reflexivity. Qed.

Lemma rstrip_app_LF (s : string) :
  Text.rstrip (s ++ String Text.LF "") = Text.rstrip s.
Proof.
  induction s as [|c s IH]; [reflexivity |].
  rewrite app_String. simpl. now rewrite IH.
Qed.

(** The line terminator is stripped with the rest. *)
Lemma strip_app_LF (s : string) :
  Text.strip (s ++ String Text.LF "") = Text.strip s.
Proof.
  unfold Text.strip. induction s as [|c s IH]; [reflexivity |].
  rewrite app_String. simpl. destruct (Text.isspace c) eqn:Ec; [exact IH |].
  rewrite <- app_String. apply rstrip_app_LF.
Qed.

Lemma all_chars_app (P : ascii -> bool) (a b : string) :
  all_chars P (a ++ b) = all_chars P a && all_chars P b.
Proof.
  induction a as [|c a IH]; [reflexivity |].
  rewrite app_String. simpl. rewrite IH. now rewrite andb_assoc.
Qed.

Lemma all_chars_lstrip (P : ascii -> bool) (s : string) :
  all_chars P s = true -> all_chars P (Text.lstrip s) = true.
Proof.
  induction s as [|c s IH]; [reflexivity |]. simpl. intros H.
  apply andb_true_iff in H as [Hc Hs].
  destruct (Text.isspace c); [now apply IH | simpl; now rewrite Hc, Hs].
Qed.

Lemma all_chars_rstrip (P : ascii -> bool) (s : string) :
  all_chars P s = true -> all_chars P (Text.rstrip s) = true.
Proof.
  induction s as [|c s IH]; [reflexivity |]. simpl. intros H.
  apply andb_true_iff in H as [Hc Hs]. specialize (IH Hs).
  destruct (Text.rstrip s).
  - destruct (Text.isspace c); [reflexivity | simpl; now rewrite Hc].
  - simpl in *. now rewrite Hc, IH.
Qed.

Lemma all_chars_strip (P : ascii -> bool) (s : string) :
  all_chars P s = true -> all_chars P (Text.strip s) = true.
Proof. intros H. now apply all_chars_rstrip, all_chars_lstrip. Qed.

(** ** Line breaks *)

Lemma universal_newlines_no_CR (s : string) :
  all_chars (fun c => negb (Ascii.eqb c Text.CR)) (Text.universal_newlines s) = true.
Proof.
  assert (H : forall n s, (String.length s < n)%nat ->
            all_chars (fun c => negb (Ascii.eqb c Text.CR)) (Text.universal_newlines s) = true).
  { clear s. induction n as [|n IH]; intros s Hn; [lia |].
    destruct s as [|c r]; [reflexivity |]. simpl in Hn. simpl.
    destruct (Ascii.eqb c Text.CR) eqn:Ec.
    - destruct r as [|c' r']; [reflexivity |]. simpl in Hn.
      destruct (Ascii.eqb c' Text.LF);
        (change (all_chars ?P (String ?x ?y)) with (P x && all_chars P y));
        cbv beta; change (negb (Ascii.eqb Text.LF Text.CR)) with true;
        rewrite andb_true_l; apply IH; simpl; lia.
    - change (all_chars ?P (String ?x ?y)) with (P x && all_chars P y).
      cbv beta. rewrite Ec. simpl negb. rewrite andb_true_l. apply IH. lia. }
  apply (H (S (String.length s))). lia.
Qed.

Lemma all_chars_join (P : ascii -> bool) (ls : list string) :
  all_chars P (Text.join ls) = true -> Forall (fun l => all_chars P l = true) ls.
Proof.
  induction ls as [|l ls IH]; [constructor |].
  unfold Text.join in *. simpl. rewrite all_chars_app. intros H.
  apply andb_true_iff in H as [Hl Hls]. constructor; [exact Hl | now apply IH].
Qed.

Lemma no_break_from_counts (s : string) :
  Text.count_newlines s = 0%nat ->
  all_chars (fun c => negb (Ascii.eqb c Text.CR)) s = true ->
  all_chars (fun c => negb (is_break c)) s = true.
Proof.
  induction s as [|c s IH]; [reflexivity |]. simpl. intros Hn Hc.
  apply andb_true_iff in Hc as [Hc Hs]. unfold is_break at 1.
  destruct (Ascii.eqb c Text.LF); [discriminate |]. simpl in *.
  rewrite Hc. simpl. now apply IH.
Qed.

(** X9: every name [load_names] returns is clean: it has no white space
    at its ends and no line break in it. *)
Theorem load_names_returns_clean_names (w w' : world) (p : string)
    (names : list string) :
  load_names p w = (w', Ok names) -> Forall clean names.
Proof.
  intros H. unfold load_names in H. bind_inv H. bind_inv H.
  apply ret_ok in H as [_ ->]. rewrite append_loop_map. simpl.
  destruct a as [body|]; [| discriminate]. apply ret_ok in H1 as [_ ->].
  pose proof (universal_newlines_no_CR body) as Hcr.
  set (s := Text.universal_newlines body) in *.
  rewrite <- (lines_join s) in Hcr. apply all_chars_join in Hcr.
  pose proof (lines_shape s) as Hshape.
  apply List.Forall_forall. intros n Hn. apply in_map_iff in Hn as (l & <- & Hl).
  rewrite List.Forall_forall in Hcr, Hshape.
  specialize (Hcr l Hl). destruct (Hshape l Hl) as (b & Hb & Hlb).
  split; [apply strip_idem |].
  assert (Hbody : all_chars (fun c => negb (is_break c)) b = true).
  { apply no_break_from_counts; [exact Hb |].
    destruct Hlb as [-> | ->]; [| exact Hcr].
    rewrite all_chars_app in Hcr. now apply andb_true_iff in Hcr as [Hcr _]. }
  destruct Hlb as [-> | ->]; [rewrite strip_app_LF |]; now apply all_chars_strip.
Qed.

(** ** Writing names and reading them back *)

Lemma no_break_no_CR (s : string) :
  all_chars (fun c => negb (is_break c)) s = true ->
  all_chars (fun c => negb (Ascii.eqb c Text.CR)) s = true
  /\ all_chars (fun c => negb (Ascii.eqb c Text.LF)) s = true.
Proof.
  induction s as [|c s IH]; [now split |]. simpl. intros H.
  apply andb_true_iff in H as [Hc Hs]. destruct (IH Hs) as [H1 H2].
  unfold is_break in Hc. apply negb_true_iff, orb_false_iff in Hc as [Hlf Hcr].
  rewrite Hlf, Hcr, H1, H2. now split.
Qed.

Lemma universal_newlines_app (n t : string) :
  all_chars (fun c => negb (Ascii.eqb c Text.CR)) n = true ->
  Text.universal_newlines (n ++ t) = n ++ Text.universal_newlines t.
Proof.
  induction n as [|c n IH]; [reflexivity |]. simpl. intros H.
  apply andb_true_iff in H as [Hc Hn]. apply negb_true_iff in Hc.
  rewrite !app_String. simpl. rewrite Hc. now rewrite IH.
Qed.

Lemma lines_app_line (n rest : string) :
  all_chars (fun c => negb (Ascii.eqb c Text.LF)) n = true ->
  Text.lines (n ++ String Text.LF rest) = (n ++ String Text.LF "") :: Text.lines rest.
Proof.
  induction n as [|c n IH]; [reflexivity |]. simpl. intros H.
  apply andb_true_iff in H as [Hc Hn]. apply negb_true_iff in Hc.
  rewrite !app_String. simpl. rewrite Hc. now rewrite IH.
Qed.

Lemma names_text_cons (eol n : string) (ns : list string) :
  names_text eol (n :: ns) = n ++ eol ++ names_text eol ns.
Proof. unfold names_text, Text.join. simpl. now rewrite string_app_assoc. Qed.

Lemma clean_head (n : string) (c : ascii) (r : string) :
  clean n -> n = String c r -> Ascii.eqb c Text.LF = false.
Proof.
  intros [_ Hn] ->. simpl in Hn. apply andb_true_iff in Hn as [Hc _].
  unfold is_break in Hc. now apply negb_true_iff, orb_false_iff in Hc as [Hc _].
Qed.

Lemma names_text_head (ns : list string) (tail : string) (c : ascii) (r : string) :
  Forall clean ns -> clean tail ->
  names_text (String Text.CR "") ns ++ tail = String c r ->
  Ascii.eqb c Text.LF = false.
Proof.
  intros Hns Ht H. destruct ns as [|n ns].
  - rewrite app_Empty in H. now apply (clean_head tail c r).
  - rewrite names_text_cons, !string_app_assoc in H.
    inversion Hns as [|? ? Hn _]; subst. destruct n as [|c' n'].
    + rewrite app_Empty, app_String in H. injection H as <- _. reflexivity.
    + rewrite app_String in H. injection H as <- _.
      now apply (clean_head (String c' n') c' n').
Qed.

(** Read in text mode, the three line terminators are one. *)
Lemma universal_newlines_names_text (eol : string) (ns : list string) (tail : string) :
  is_eol eol -> Forall clean ns -> clean tail ->
  Text.universal_newlines (names_text eol ns ++ tail)
  = names_text (String Text.LF "") ns ++ tail.
Proof.
  intros Heol Hns Ht. induction Hns as [|n ns [Hs Hn] Hns IH].
  - rewrite !app_Empty. destruct Ht as [_ Ht].
    destruct (no_break_no_CR tail Ht) as [Hcr _].
    rewrite <- (string_app_nil_r tail) at 1.
    rewrite universal_newlines_app by exact Hcr. now rewrite string_app_nil_r.
  - rewrite !names_text_cons, !string_app_assoc.
    destruct (no_break_no_CR n Hn) as [Hcr _].
    rewrite universal_newlines_app by exact Hcr. f_equal.
    destruct Heol as [->|[->| ->]].
    + rewrite !app_String, !app_Empty. simpl. now rewrite IH.
    + rewrite !app_String, !app_Empty. simpl. now rewrite IH.
    + rewrite !app_String, !app_Empty.
      destruct (names_text (String Text.CR "") ns ++ tail) as [|c r] eqn:E.
      * rewrite <- IH. reflexivity.
      * pose proof (names_text_head ns tail c r Hns Ht E) as Hc.
        rewrite <- IH. simpl. now rewrite Hc.
Qed.

Lemma lines_single (s : string) :
  s <> "" -> all_chars (fun c => negb (Ascii.eqb c Text.LF)) s = true ->
  Text.lines s = [s].
Proof.
  induction s as [|c s IH]; [congruence |]. intros _ H. simpl in H.
  apply andb_true_iff in H as [Hc Hs]. apply negb_true_iff in Hc.
  simpl. rewrite Hc. destruct s as [|c' s']; [reflexivity |].
  rewrite IH by (discriminate || assumption). reflexivity.
Qed.

Lemma lines_names_text (ns : list string) (tail : string) :
  Forall clean ns -> clean tail ->
  Text.lines (names_text (String Text.LF "") ns ++ tail)
  = (map (fun n => (n ++ String Text.LF "")%string) ns
     ++ (if String.eqb tail "" then [] else [tail]))%list.
Proof.
  intros Hns [_ Ht]. induction Hns as [|n ns [Hs Hn] Hns IH].
  - rewrite app_Empty. simpl. destruct (String.eqb_spec tail "") as [->|Hne];
      [reflexivity |].
    apply lines_single; [exact Hne |]. now apply no_break_no_CR.
  - rewrite names_text_cons, !string_app_assoc, app_String, app_Empty.
    destruct (no_break_no_CR n Hn) as [_ Hlf].
    rewrite lines_app_line by exact Hlf. simpl. now rewrite IH.
Qed.

(** A label map of clean names, one per line, the last one with or
    without its line terminator. *)
Lemma load_names_written (w : world) (p : string) (pm : perm)
    (eol : string) (names : list string) (last : string) :
  is_eol eol ->
  Forall clean names -> clean last ->
  fs w !! p = Some (File pm (Text (names_text eol names ++ last))) ->
  can_read pm = true ->
  load_names p w
  = (w, Ok (names ++ (if String.eqb last "" then [] else [last]))%list).
Proof.
  intros Heol Hns Hl Hp Hr.
  rewrite (load_names_text w p pm _ Hp Hr).
  rewrite universal_newlines_names_text, lines_names_text by assumption.
  do 2 f_equal. rewrite map_app, map_map. clear Hp. f_equal.
  - induction Hns as [|n ns [Hs _] _ IH]; [reflexivity |].
    simpl. rewrite strip_app_LF, Hs. f_equal. exact IH.
  - destruct (String.eqb last ""); [reflexivity |]. simpl. now rewrite (proj1 Hl).
Qed.

(** X10: a label map written with one clean name per line, whether the
    lines end in ["\n"], ["\r\n"] or ["\r"], is read back by [load_names]
    as exactly these names, in their order, the empty name of a blank
    line included. *)
Theorem load_names_reads_back_written_names (w : world) (p : string) (pm : perm)
    (eol : string) (names : list string) :
  is_eol eol ->
  Forall clean names ->
  fs w !! p = Some (File pm (Text (names_text eol names))) ->
  can_read pm = true ->
  load_names p w = (w, Ok names).
Proof.
  intros Heol Hns Hp Hr.
  rewrite (load_names_written w p pm eol names "" Heol Hns); try assumption.
  - simpl. now rewrite app_nil_r.
  - split; reflexivity.
  - now rewrite string_app_nil_r.
Qed.

(** X11: the line terminator after the last name is optional: a label
    map whose last line is a clean name that is not empty, without a
    terminator, is read back with this name as the last one. *)
Theorem load_names_last_line_unterminated (w : world) (p : string) (pm : perm)
    (eol : string) (names : list string) (last : string) :
  is_eol eol ->
  Forall clean names -> clean last -> last <> "" ->
  fs w !! p = Some (File pm (Text (names_text eol names ++ last))) ->
  can_read pm = true ->
  load_names p w = (w, Ok (names ++ [last])%list).
Proof.
  intros Heol Hns Hl Hne Hp Hr.
  rewrite (load_names_written w p pm eol names last Heol Hns Hl Hp Hr).
  destruct (String.eqb_spec last ""); [contradiction | reflexivity].
Qed.

(** * Properties of [main] *)

(** ** Colours and names *)

Lemma make_colors_length (rand : nat -> Z) (n : nat) : length (make_colors rand n) = n.
Proof. unfold make_colors. now rewrite length_map, length_seq. Qed.

Lemma make_colors_lookup (rand : nat -> Z) (n i : nat) :
  (i < n)%nat ->
  make_colors rand n !! i
  = Some [rand (3 * i)%nat; rand (3 * i + 1)%nat; rand (3 * i + 2)%nat].
Proof.
  intros Hi. unfold make_colors. rewrite list_lookup_fmap.
  now rewrite lookup_seq_lt.
Qed.

(** X12: with the colours [main] makes, one of three draws per name, the
    colour of a class that has a name is found at the position of the
    name: taking the class id modulo the number of colours changes
    nothing but the sign of a negative id, as indexing the names does. *)
Theorem colour_sits_at_the_position_of_the_name (cli : Cli) (rand : nat -> Z)
    (names : list string) (c : Z) :
  named (args_with cli rand names) c ->
  exists i nm,
    (i < length names)%nat
    /\ names !! i = Some nm
    /\ py_index (Detect.names (args_with cli rand names)) c = Ok nm
    /\ colors (args_with cli rand names)
         !! Z.to_nat (c mod Z.of_nat (length (colors (args_with cli rand names))))
       = Some [rand (3 * i)%nat; rand (3 * i + 1)%nat; rand (3 * i + 2)%nat].
Proof.
  unfold named. simpl. rewrite make_colors_length. intros Hc.
  set (n := Z.of_nat (length names)) in *.
  set (j := if c <? 0 then c + n else c).
  assert (Hj : 0 <= j < n) by (unfold j; destruct (c <? 0) eqn:E; lia).
  assert (Hmod : c mod n = j).
  { unfold j. destruct (c <? 0) eqn:E.
    - symmetry. apply (Z.mod_unique c n (-1) (c + n)); lia.
    - apply Z.mod_small. lia. }
  exists (Z.to_nat j).
  assert (Hlt : (Z.to_nat j < length names)%nat) by lia.
  destruct (lookup_lt_is_Some_2 names (Z.to_nat j) Hlt) as [nm Hnm].
  exists nm. split; [exact Hlt |]. split; [exact Hnm |]. split.
  - unfold py_index. fold n. fold j.
    assert ((0 <=? j) && (j <? n) = true) as -> by (apply andb_true_iff; split; lia).
    now rewrite Hnm.
  - rewrite Hmod. now apply make_colors_lookup.
Qed.

(** ** The run of [main] *)

Lemma load_names_world (p : string) (w : world) : fst (load_names p w) = w.
Proof.
  unfold load_names, bind, open_r.
  destruct (fs w !! p) as [[|pm [body|im tl]]|]; try reflexivity;
    destruct (can_read pm); reflexivity.
Qed.

(** X13: when the label map cannot be read, [main] raises what
    [load_names] raises, once the model is made and before anything
    else: the model is neither warmed up nor run, and nothing is
    written or printed any more. *)
Theorem main_stops_at_unreadable_label_map (rt : Runtime) (cli : Cli)
    (w w1 : world) (e : exn) :
  build_model rt {| fs := fs w; stdout := stdout w ++ [show_args rt] |} = (w1, Ok tt) ->
  snd (load_names (str (parse (labelmap cli))) w1) = Raise e ->
  main rt cli w = (w1, Raise e).
Proof.
  intros Hb Hl. unfold main.
  erewrite bind_eq; [| reflexivity].
  erewrite bind_eq; [| exact Hb].
  unfold bind at 1.
  pose proof (load_names_world (str (parse (labelmap cli))) w1) as Hw.
  destruct (load_names (str (parse (labelmap cli))) w1) as [w2 [names|e']];
    simpl in *; [discriminate |].
  now injection Hl as ->; subst w2.
Qed.



(** * The order of the effects *)


(** * The summary and the order of the detections *)

Lemma sorted_ext (l1 l2 : list Z) :
  StronglySorted Z.lt l1 -> StronglySorted Z.lt l2 ->
  (forall x, In x l1 <-> In x l2) -> l1 = l2.
Proof.
  intros H1. revert l2. induction H1 as [|a l1 Hl1 IH Ha]; intros l2 H2 Hin.
  - destruct l2 as [|b l2]; [reflexivity |]. exfalso. apply (Hin b). now left.
  - destruct H2 as [|b l2 Hl2 Hb].
    { exfalso. apply (Hin a). now left. }
    rewrite List.Forall_forall in Ha, Hb.
    assert (a = b) as <-.
    { destruct (proj1 (Hin a) (or_introl eq_refl)) as [E|Ia]; [now symmetry |].
      destruct (proj2 (Hin b) (or_introl eq_refl)) as [E|Ib]; [exact E |].
      specialize (Ha b Ib). specialize (Hb a Ia). lia. }
    f_equal. apply IH; [exact Hl2 |]. intros x. split; intros Hx.
    + destruct (proj1 (Hin x) (or_intror Hx)) as [E|Hx']; [| exact Hx'].
      subst x. specialize (Ha a Hx). lia.
    + destruct (proj2 (Hin x) (or_intror Hx)) as [E|Hx']; [| exact Hx'].
      subst x. specialize (Hb a Hx). lia.
Qed.

Lemma unique_Permutation (l1 l2 : list Z) :
  Permutation l1 l2 -> unique l1 = unique l2.
Proof.
  intros Hp. apply sorted_ext; try apply unique_sorted.
  intros x. rewrite !unique_In. split; apply Permutation_in; [exact Hp | now symmetry].
Qed.

Lemma count_eq_Permutation (c : Z) (l1 l2 : list Z) :
  Permutation l1 l2 -> count_eq c l1 = count_eq c l2.
Proof.
  intros Hp. unfold count_eq. f_equal.
  induction Hp as [|x l l' _ IH|x y l|l l' l'' _ IH1 _ IH2]; simpl.
  - reflexivity.
  - destruct (c =? x); simpl; now rewrite IH.
  - destruct (c =? x), (c =? y); reflexivity.
  - now rewrite IH1.
Qed.

Lemma summary_loop_Permutation (args : Args) (l1 l2 : list Z) (cs : list Z) :
  Permutation l1 l2 ->
  forall (logs : string) (w : world),
  foldM (summary_step args l1) logs cs w = foldM (summary_step args l2) logs cs w.
Proof.
  intros Hp. induction cs as [|c cs IH]; intros logs w; [reflexivity |].
  assert (Hstep : summary_step args l1 logs c = summary_step args l2 logs c).
  { unfold summary_step. now rewrite (count_eq_Permutation c l1 l2 Hp). }
  simpl. unfold bind. rewrite Hstep.
  destruct (summary_step args l2 logs c w) as [w1 [s|e]]; [apply IH | reflexivity].
Qed.

Lemma prediction_step_summary (args : Args) (path : string) (t : Q)
    (vars vars' : loop_vars) (d : detections) (w w' : world) :
  prediction_step args path t vars (Dict d) w = (w', Ok vars') ->
  exists logs,
    foldM (summary_step args (labels d)) "" (unique (labels d)) w = (w, Ok logs)
    /\ stdout w' = (stdout w ++ [(logs ++ "Done. (" ++ fmt_f 3 t ++ "s)")%string])%list.
Proof.
  intros H. unfold prediction_step in H.
  bind_inv H. bind_inv H. bind_inv H. apply ret_ok in H as [-> _].
  assert (Hw2 : stdout w2 = stdout w1).
  { destruct (save_img args); [| now apply ret_ok in H2 as [-> _]].
    bind_inv H2. apply ret_ok in H2 as [-> _].
    pose proof (imwrite_stdout
                  (str (joinpath (parse (output_dir args)) (name (parse path))))
                  (v_img a.2) w1) as Hk.
    now rewrite H3 in Hk. }
  unfold print in H1. injection H1 as <- _. simpl in Hw2. rewrite Hw2. clear Hw2 H2.
  simpl in H0. bind_inv H0. bind_inv H0. apply ret_ok in H0 as [-> ->].
  pose proof (summary_loop_world args (labels d) (unique (labels d)) "" w) as Hs.
  rewrite H1 in Hs. simpl in Hs. subst w1.
  match type of H2 with
  | foldM (detection_step _ ?tp) ?im ?l _ = _ =>
      pose proof (detection_loop_stdout args tp l im w) as Hd
  end.
  rewrite H2 in Hd. simpl in Hd. rewrite Hd.
  exists a2. split; [exact H1 | reflexivity].
Qed.

(** X16: the summary printed for a prediction does not depend on the
    order of its detections: two predictions whose labels are the same
    up to their order print the same line, the classes always in
    increasing order of their ids. *)
Theorem summary_ignores_the_order_of_detections (args : Args) (path : string)
    (t : Q) (vars1 vars2 vars1' vars2' : loop_vars) (d1 d2 : detections)
    (w w1 w2 : world) :
  Permutation (labels d1) (labels d2) ->
  prediction_step args path t vars1 (Dict d1) w = (w1, Ok vars1') ->
  prediction_step args path t vars2 (Dict d2) w = (w2, Ok vars2') ->
  stdout w1 = stdout w2.
Proof.
  intros Hp H1 H2.
  apply prediction_step_summary in H1 as (logs1 & Hs1 & ->).
  apply prediction_step_summary in H2 as (logs2 & Hs2 & ->).
  rewrite (unique_Permutation _ _ Hp) in Hs1.
  rewrite (summary_loop_Permutation args _ _ _ Hp) in Hs1.
  rewrite Hs2 in Hs1. now injection Hs1 as ->.
Qed.

(** * Rounding and the size of a box *)

Lemma round_half_even_cases (q : Q) :
  let n := Qnum q in
  let d := Zpos (Qden q) in
  let r := round_half_even q in
  2 * d * r - d <= 2 * n <= 2 * d * r + d
  /\ (2 * n = 2 * d * r - d \/ 2 * n = 2 * d * r + d -> Z.even r = true).
Proof.
  intros n d r. unfold r, round_half_even. fold n. fold d.
  assert (Hd : 0 < d) by (unfold d; lia).
  pose proof (Z.div_mod n d ltac:(lia)) as Hdm.
  pose proof (Z.mod_pos_bound n d Hd) as Hm.
  set (f := n / d) in *. set (m := n mod d) in *.
  assert (Hdf : d * (f + 1) = d * f + d) by ring.
  destruct (2 * m <? d) eqn:E1; [| destruct (d <? 2 * m) eqn:E2;
    [| destruct (Z.even f) eqn:E3]].
  - apply Z.ltb_lt in E1. split; [nia |]. intros [H|H]; nia.
  - apply Z.ltb_lt in E2. split; [nia |]. intros [H|H]; nia.
  - apply Z.ltb_ge in E1, E2. split; [nia |]. intros _. exact E3.
  - apply Z.ltb_ge in E1, E2. split; [nia |]. intros _.
    rewrite Z.even_add. rewrite E3. reflexivity.
Qed.

(** Rounding keeps the order. *)
Lemma round_half_even_mono (q1 q2 : Q) :
  (q1 <= q2)%Q -> round_half_even q1 <= round_half_even q2.
Proof.
  intros Hle. unfold Qle in Hle.
  destruct (round_half_even_cases q1) as [[L1 U1] T1].
  destruct (round_half_even_cases q2) as [[L2 U2] T2].
  set (r1 := round_half_even q1) in *. set (r2 := round_half_even q2) in *.
  set (n1 := Qnum q1) in *. set (n2 := Qnum q2) in *.
  assert (Hd1 : 0 < Zpos (Qden q1)) by lia. assert (Hd2 : 0 < Zpos (Qden q2)) by lia.
  set (d1 := Zpos (Qden q1)) in *. set (d2 := Zpos (Qden q2)) in *.
  destruct (Z_le_gt_dec r1 r2) as [|Hgt]; [assumption | exfalso].
  assert (H1 : 2 * n1 * d2 >= (2 * d1 * r2 + d1) * d2) by nia.
  assert (H2 : 2 * n2 * d1 <= (2 * d2 * r2 + d2) * d1) by nia.
  assert (E1 : 2 * n1 = 2 * d1 * r1 - d1 /\ r1 = r2 + 1) by nia.
  assert (E2 : 2 * n2 = 2 * d2 * r2 + d2) by nia.
  destruct E1 as [E1 Er].
  assert (Ev1 : Z.even r1 = true) by (apply T1; now left).
  assert (Ev2 : Z.even r2 = true) by (apply T2; now right).
  rewrite Er, Z.even_add, Ev2 in Ev1. discriminate.
Qed.

(** X17: for a box whose corners are in order, what is written after
    the class id is a centre between the rounded corners, a whole or a
    half number each way, and a width and a height that are whole numbers
    and not negative: rounding the corners keeps their order. *)
Theorem written_box_is_whole_and_not_negative (b : box) :
  (bx1 b <= bx2 b)%Q ->
  (by1 b <= by2 b)%Q ->
  exists kcx kcy kw kh : Z,
    Forall2 Qeq (box_convert_xyxy_cxcywh (round_box b))
      [kcx # 2; kcy # 2; inject_Z kw; inject_Z kh]
    /\ 0 <= kw /\ 0 <= kh
    /\ 2 * round_half_even (bx1 b) <= kcx <= 2 * round_half_even (bx2 b)
    /\ 2 * round_half_even (by1 b) <= kcy <= 2 * round_half_even (by2 b).
Proof.
  intros Hx Hy.
  apply round_half_even_mono in Hx. apply round_half_even_mono in Hy.
  exists (round_half_even (bx1 b) + round_half_even (bx2 b)),
         (round_half_even (by1 b) + round_half_even (by2 b)),
         (round_half_even (bx2 b) - round_half_even (bx1 b)),
         (round_half_even (by2 b) - round_half_even (by1 b)).
  split; [| lia].
  unfold box_convert_xyxy_cxcywh, round_box, round_entry. simpl.
  repeat constructor; unfold Qeq; simpl; lia.
Qed.

(** * The numbers of a line *)

(** ** Their characters *)

Lemma digit_char_numeral (n : Z) : numeral_char (digit_char (n mod 10)) = true.
Proof.
  assert (H : 0 <= n mod 10 < 10) by (apply Z.mod_pos_bound; lia).
  assert (C : n mod 10 = 0 \/ n mod 10 = 1 \/ n mod 10 = 2 \/ n mod 10 = 3
              \/ n mod 10 = 4 \/ n mod 10 = 5 \/ n mod 10 = 6 \/ n mod 10 = 7
              \/ n mod 10 = 8 \/ n mod 10 = 9) by lia.
  destruct C as [->|[->|[->|[->|[->|[->|[->|[->|[->| ->]]]]]]]]]; reflexivity.
Qed.

Lemma all_chars_String (P : ascii -> bool) (c : ascii) (s : string) :
  all_chars P (String c s) = P c && all_chars P s.
Proof. reflexivity. Qed.

Lemma decimal_go_numeral (fuel : nat) (n : Z) (acc : string) :
  all_chars numeral_char acc = true ->
  all_chars numeral_char (decimal_go fuel n acc) = true.
Proof.
  revert n acc. induction fuel as [|f IH]; intros n acc Hacc; simpl; [assumption |].
  assert (Hc : all_chars numeral_char (String (digit_char (n mod 10)) acc) = true).
  { now rewrite all_chars_String, digit_char_numeral, Hacc. }
  destruct (n / 10 =? 0); [exact Hc | now apply IH].
Qed.

Lemma decimal_numeral (n : Z) : all_chars numeral_char (decimal n) = true.
Proof. apply decimal_go_numeral. reflexivity. Qed.

Lemma zeros_numeral (k : nat) : all_chars numeral_char (zeros k) = true.
Proof. induction k as [|k IH]; [reflexivity | exact IH]. Qed.

Lemma all_chars_substring (P : ascii -> bool) (s : string) :
  all_chars P s = true -> forall n m, all_chars P (String.substring n m s) = true.
Proof.
  induction s as [|c s IH]; intros Hs n m.
  - destruct n, m; reflexivity.
  - rewrite all_chars_String in Hs. apply andb_true_iff in Hs as [Hc Hs].
    destruct n as [|n].
    + destruct m as [|m]; simpl; [reflexivity |]. rewrite Hc. now apply IH.
    + simpl. now apply IH.
Qed.

Lemma all_chars_strip_zeros (P : ascii -> bool) (s : string) :
  all_chars P s = true -> all_chars P (strip_zeros_r s) = true.
Proof.
  induction s as [|c s IH]; intros Hs; [reflexivity |].
  rewrite all_chars_String in Hs. apply andb_true_iff in Hs as [Hc Hs].
  specialize (IH Hs). simpl.
  destruct (strip_zeros_r s) as [|c' r'].
  - destruct (Ascii.eqb c "0"); [reflexivity |]. now rewrite all_chars_String, Hc.
  - now rewrite all_chars_String, Hc, IH.
Qed.

Lemma pad_left_numeral (k : nat) (s : string) :
  all_chars numeral_char s = true -> all_chars numeral_char (pad_left k s) = true.
Proof. intros Hs. unfold pad_left. now rewrite all_chars_app, zeros_numeral, Hs. Qed.

Lemma g_fixed_numeral (ds : string) (decpt : Z) :
  all_chars numeral_char ds = true -> all_chars numeral_char (g_fixed ds decpt) = true.
Proof.
  intros Hs. unfold g_fixed.
  destruct (decpt <=? 0); [| destruct (_ <=? decpt)].
  - now rewrite !all_chars_app, zeros_numeral, Hs.
  - now rewrite all_chars_app, zeros_numeral, Hs.
  - rewrite !all_chars_app, !all_chars_substring by assumption. reflexivity.
Qed.

Lemma g_sci_numeral (ds : string) (x : Z) :
  all_chars numeral_char ds = true -> all_chars numeral_char (g_sci ds x) = true.
Proof.
  intros Hs. unfold g_sci. destruct ds as [|c r]; [reflexivity |].
  rewrite all_chars_String in Hs. apply andb_true_iff in Hs as [Hc Hs].
  rewrite app_String, all_chars_String, Hc.
  rewrite !all_chars_app, pad_left_numeral by apply decimal_numeral.
  assert (all_chars numeral_char (match r with "" => "" | String _ _ => "." ++ r end) = true)
    as -> by (destruct r; [reflexivity | rewrite all_chars_app; exact Hs]).
  destruct (x <? 0); reflexivity.
Qed.

(** ['%g' % q] is made of digits, sign, point and exponent mark. *)
Lemma fmt_g_numeral_chars (q : Q) : all_chars numeral_char (fmt_g q) = true.
Proof.
  unfold fmt_g. destruct (Z.abs (Qnum q) =? 0); [reflexivity |].
  rewrite all_chars_app.
  assert (all_chars numeral_char (if Qnum q <? 0 then "-" else "") = true) as ->
    by (destruct (Qnum q <? 0); reflexivity).
  simpl.
  match goal with
  | |- context [strip_zeros_r ?d] =>
      assert (Hd : all_chars numeral_char (strip_zeros_r d) = true)
        by (apply all_chars_strip_zeros; destruct (_ =? 1000000); apply decimal_numeral)
  end.
  destruct (_ || _); [now apply g_sci_numeral | now apply g_fixed_numeral].
Qed.

(** ** They are not empty *)

Lemma round_half_even_ge_1 (q : Q) : Zpos (Qden q) <= Qnum q -> 1 <= round_half_even q.
Proof.
  intros H. unfold round_half_even.
  assert (Hf : 1 <= Qnum q / Zpos (Qden q)) by (apply Z.div_le_lower_bound; lia).
  destruct (_ <? _); [exact Hf |].
  destruct (_ <? _); [lia |].
  destruct (Z.even _); lia.
Qed.

Lemma decimal_go_length_le (fuel : nat) (n : Z) (acc : string) :
  (String.length acc <= String.length (decimal_go fuel n acc))%nat.
Proof.
  revert n acc. induction fuel as [|f IH]; intros n acc; simpl; [lia |].
  destruct (n / 10 =? 0); [simpl; lia |].
  etransitivity; [| apply IH]. simpl. lia.
Qed.

Lemma decimal_go_pow (fuel : nat) (n : Z) (acc : string) :
  0 < n ->
  10 ^ (Z.of_nat (String.length (decimal_go fuel n acc)) - Z.of_nat (String.length acc))
  <= 10 * n.
Proof.
  revert n acc. induction fuel as [|f IH]; intros n acc Hn; simpl.
  - rewrite Z.sub_diag. simpl. lia.
  - destruct (n / 10 =? 0) eqn:E.
    + simpl String.length.
      replace (Z.of_nat (S (String.length acc)) - Z.of_nat (String.length acc)) with 1 by lia.
      simpl. lia.
    + apply Z.eqb_neq in E.
      assert (Hq : 0 < n / 10).
      { pose proof (Z.div_pos n 10 ltac:(lia) ltac:(lia)). lia. }
      set (acc' := String (digit_char (n mod 10)) acc).
      pose proof (IH (n / 10) acc' Hq) as Hp.
      pose proof (decimal_go_length_le f (n / 10) acc') as Hl.
      assert (Hacc : String.length acc' = S (String.length acc)) by reflexivity.
      rewrite Hacc in Hp, Hl.
      replace (Z.of_nat (String.length (decimal_go f (n / 10) acc'))
               - Z.of_nat (String.length acc))
        with (Z.succ (Z.of_nat (String.length (decimal_go f (n / 10) acc'))
                      - Z.of_nat (S (String.length acc)))) by lia.
      rewrite Z.pow_succ_r by lia.
      pose proof (Z.mul_div_le n 10 ltac:(lia)). lia.
Qed.

(** A number of [L] digits is at least [10 ^ (L - 1)]. *)
Lemma decimal_pow (n : Z) :
  0 < n -> 10 ^ (Z.of_nat (String.length (decimal n)) - 1) <= n.
Proof.
  intros Hn. unfold decimal.
  set (fuel := Z.to_nat (Z.log2 n)).
  pose proof (decimal_go_pow (S fuel) n "" Hn) as Hp.
  assert (Hl : (1 <= String.length (decimal_go (S fuel) n ""))%nat).
  { simpl. destruct (n / 10 =? 0); [simpl; lia |].
    etransitivity; [| apply decimal_go_length_le]. simpl. lia. }
  change (String.length "") with 0%nat in Hp.
  set (L := Z.of_nat (String.length (decimal_go (S fuel) n ""))) in *.
  assert (HL : 1 <= L) by (unfold L; lia).
  replace (L - Z.of_nat 0) with (Z.succ (L - 1)) in Hp by lia.
  rewrite Z.pow_succ_r in Hp by lia. lia.
Qed.

Lemma small_exponent_spec (fuel : nat) :
  forall n d k : Z,
  0 < n -> d <= n * 10 ^ Z.of_nat fuel ->
  small_exponent fuel n d k <= k
  /\ d <= n * 10 ^ (k - small_exponent fuel n d k).
Proof.
  induction fuel as [|f IH]; intros n d k Hn Hd.
  - simpl. rewrite Z.sub_diag. simpl in *. lia.
  - simpl small_exponent. destruct (d <=? n * 10) eqn:E.
    + apply Z.leb_le in E. replace (k - (k - 1)) with 1 by lia.
      change (10 ^ 1) with 10. lia.
    + destruct (IH (n * 10) d (k - 1)) as [Hr Hp]; [lia | |].
      * rewrite Nat2Z.inj_succ, Z.pow_succ_r in Hd by lia. lia.
      * split; [lia |].
        replace (k - small_exponent f (n * 10) d (k - 1))
          with (Z.succ (k - 1 - small_exponent f (n * 10) d (k - 1))) by lia.
        rewrite Z.pow_succ_r by lia. lia.
Qed.

Lemma below_pow10_log2 (d : Z) :
  0 < d -> d <= 10 ^ Z.of_nat (S (Z.to_nat (Z.log2 d))).
Proof.
  intros Hd. pose proof (Z.log2_nonneg d) as Hl.
  destruct (Z.log2_spec d Hd) as [_ Hu].
  rewrite Nat2Z.inj_succ, Z2Nat.id by lia.
  assert (2 ^ Z.succ (Z.log2 d) <= 10 ^ Z.succ (Z.log2 d))
    by (apply Z.pow_le_mono_l; lia).
  lia.
Qed.

(** Scaled to six digits, a positive number is at least 1. *)
Lemma scale10_ge_1 (n d : Z) :
  0 < n -> 0 < d ->
  Zpos (Qden (scale10 n d (5 - dec_exponent n d)))
  <= Qnum (scale10 n d (5 - dec_exponent n d)).
Proof.
  intros Hn Hd. unfold scale10, dec_exponent.
  destruct (d <=? n) eqn:E.
  - apply Z.leb_le in E.
    assert (Hq : 0 < n / d) by (apply Z.div_str_pos; lia).
    pose proof (decimal_pow (n / d) Hq) as Hp.
    pose proof (Z.mul_div_le n d Hd) as Hm.
    set (x := Z.of_nat (String.length (decimal (n / d))) - 1) in *.
    destruct (0 <=? 5 - x) eqn:Ek; simpl.
    + apply Z.leb_le in Ek. rewrite Z2Pos.id by lia.
      assert (0 < 10 ^ (5 - x)) by (apply Z.pow_pos_nonneg; lia). nia.
    + apply Z.leb_gt in Ek.
      assert (Hpos : 0 < 10 ^ (- (5 - x))) by (apply Z.pow_pos_nonneg; lia).
      rewrite Z2Pos.id by nia.
      assert (10 ^ (- (5 - x)) <= 10 ^ x) by (apply Z.pow_le_mono_r; lia).
      nia.
  - apply Z.leb_gt in E.
    set (fuel := S (Z.to_nat (Z.log2 d))).
    destruct (small_exponent_spec fuel n d 0 Hn) as [Hr Hp].
    { pose proof (below_pow10_log2 d Hd). fold fuel in H.
      assert (0 < 10 ^ Z.of_nat fuel) by (apply Z.pow_pos_nonneg; lia). nia. }
    set (x := small_exponent fuel n d 0) in *.
    assert (Ek : (0 <=? 5 - x) = true) by (apply Z.leb_le; lia).
    rewrite Ek. simpl. rewrite Z2Pos.id by lia.
    assert (10 ^ (0 - x) <= 10 ^ (5 - x)) by (apply Z.pow_le_mono_r; lia).
    nia.
Qed.

Lemma digit_char_nonzero (n : Z) :
  0 < n -> n / 10 = 0 -> Ascii.eqb (digit_char (n mod 10)) "0" = false.
Proof.
  intros Hn Hq.
  assert (H : 0 <= n mod 10 < 10) by (apply Z.mod_pos_bound; lia).
  pose proof (Z.div_mod n 10 ltac:(lia)) as Hdm.
  assert (C : n mod 10 = 1 \/ n mod 10 = 2 \/ n mod 10 = 3
              \/ n mod 10 = 4 \/ n mod 10 = 5 \/ n mod 10 = 6 \/ n mod 10 = 7
              \/ n mod 10 = 8 \/ n mod 10 = 9) by lia.
  destruct C as [->|[->|[->|[->|[->|[->|[->|[->| ->]]]]]]]]; reflexivity.
Qed.

Lemma decimal_go_keeps_nonzero (fuel : nat) (n : Z) (acc : string) :
  all_chars (fun c => Ascii.eqb c "0") acc = false ->
  all_chars (fun c => Ascii.eqb c "0") (decimal_go fuel n acc) = false.
Proof.
  revert n acc. induction fuel as [|f IH]; intros n acc Hacc; simpl; [assumption |].
  assert (Hc : all_chars (fun c => Ascii.eqb c "0")
                 (String (digit_char (n mod 10)) acc) = false).
  { rewrite all_chars_String, Hacc. apply andb_false_r. }
  destruct (n / 10 =? 0); [exact Hc | now apply IH].
Qed.

Lemma decimal_go_nonzero (fuel : nat) :
  forall (n : Z) (acc : string),
  0 < n < 2 ^ Z.of_nat fuel ->
  all_chars (fun c => Ascii.eqb c "0") (decimal_go fuel n acc) = false.
Proof.
  induction fuel as [|f IH]; intros n acc Hn; [simpl in Hn; lia |].
  simpl decimal_go. destruct (n / 10 =? 0) eqn:E.
  - apply Z.eqb_eq in E. rewrite all_chars_String, digit_char_nonzero by lia.
    reflexivity.
  - apply Z.eqb_neq in E. apply IH.
    rewrite Nat2Z.inj_succ, Z.pow_succ_r in Hn by lia.
    pose proof (Z.div_pos n 10 ltac:(lia) ltac:(lia)).
    split; [lia |]. apply Z.div_lt_upper_bound; lia.
Qed.

Lemma decimal_nonzero (n : Z) :
  0 < n -> all_chars (fun c => Ascii.eqb c "0") (decimal n) = false.
Proof.
  intros Hn. apply decimal_go_nonzero.
  pose proof (Z.log2_nonneg n). destruct (Z.log2_spec n Hn) as [_ Hu].
  rewrite Nat2Z.inj_succ, Z2Nat.id by lia. lia.
Qed.

Lemma strip_zeros_nonempty (s : string) :
  all_chars (fun c => Ascii.eqb c "0") s = false -> strip_zeros_r s <> "".
Proof.
  induction s as [|c s IH]; [discriminate |].
  rewrite all_chars_String. intros H. simpl.
  destruct (strip_zeros_r s) as [|c' r'] eqn:Es; [| discriminate].
  destruct (Ascii.eqb c "0"); [| discriminate].
  simpl in H. now apply IH in H.
Qed.

Lemma app_nonempty_r (a b : string) : b <> "" -> (a ++ b)%string <> "".
Proof.
  intros Hb E. apply (f_equal String.length) in E.
  rewrite string_length_app in E. destruct b; [congruence | simpl in E; lia].
Qed.

Lemma app_nonempty_l (a b : string) : a <> "" -> (a ++ b)%string <> "".
Proof. destruct a; [congruence | discriminate]. Qed.

(** ['%g' % q] writes something. *)
Lemma fmt_g_nonempty (q : Q) : fmt_g q <> "".
Proof.
  unfold fmt_g. destruct (Z.abs (Qnum q) =? 0) eqn:E; [discriminate |].
  apply Z.eqb_neq in E.
  assert (Hn : 0 < Z.abs (Qnum q)) by lia.
  pose proof (scale10_ge_1 (Z.abs (Qnum q)) (Zpos (Qden q)) Hn ltac:(lia)) as Hs.
  apply round_half_even_ge_1 in Hs.
  cbv zeta.
  set (m0 := round_half_even _) in *.
  set (m := if m0 =? 1000000 then 100000 else m0).
  assert (Hm : 0 < m) by (unfold m; destruct (m0 =? 1000000); lia).
  assert (Hds : strip_zeros_r (decimal m) <> "")
    by (apply strip_zeros_nonempty, decimal_nonzero, Hm).
  apply app_nonempty_r.
  destruct (_ || _).
  - unfold g_sci. destruct (strip_zeros_r (decimal m)); [congruence | discriminate].
  - unfold g_fixed. destruct (_ <=? 0); [discriminate |].
    destruct (_ <=? _); [now apply app_nonempty_l |].
    apply app_nonempty_r. discriminate.
Qed.

Lemma fmt_g_numeral (q : Q) : numeral (fmt_g q).
Proof. split; [apply fmt_g_nonempty | apply fmt_g_numeral_chars]. Qed.

(** ** The line of a detection *)

Lemma round_half_even_rounds (q : Q) : rounds_to q (round_half_even q).
Proof.
  destruct (round_half_even_cases q) as [Hb Ht]. cbv zeta in Hb, Ht.
  destruct q as [n d]. simpl in Hb, Ht.
  set (r := round_half_even (n # d)) in *.
  unfold rounds_to, Qle, Qeq, Qplus, Qminus, Qopp, inject_Z. simpl.
  split; [lia |]. intros H. apply Ht. lia.
Qed.

Lemma midpoint_whole (a b : Z) : ((inject_Z a + inject_Z b) / 2)%Q = (a + b # 2).
Proof.
  unfold Qdiv, Qmult, Qplus, Qinv, inject_Z. simpl. f_equal. ring.
Qed.

Lemma difference_whole (a b : Z) : (inject_Z b - inject_Z a)%Q = inject_Z (b - a).
Proof.
  unfold Qminus, Qplus, Qopp, inject_Z. simpl. f_equal. ring.
Qed.

Lemma label_line_five_numbers (c : Z) (b : box) :
  label_line c (box_convert_xyxy_cxcywh (round_box b))
  = five_numbers c (round_half_even (bx1 b)) (round_half_even (by1 b))
      (round_half_even (bx2 b)) (round_half_even (by2 b)).
Proof.
  unfold label_line, five_numbers, box_convert_xyxy_cxcywh, round_box, round_entry.
  cbn [bx1 by1 bx2 by2]. rewrite !midpoint_whole, !difference_whole.
  unfold Text.join. cbn [map fold_right]. rewrite !string_app_assoc. reflexivity.
Qed.

Lemma label_line_line_of (b : box) (conf : Q) (c : Z) :
  line_of (b, conf, c) (label_line c (box_convert_xyxy_cxcywh (round_box b))).
Proof.
  exists (round_half_even (bx1 b)), (round_half_even (by1 b)),
    (round_half_even (bx2 b)), (round_half_even (by2 b)).
  repeat (split; [apply round_half_even_rounds |]).
  apply label_line_five_numbers.
Qed.

Lemma label_line_five_fields (c : Z) (b : box) :
  five_fields (label_line c (box_convert_xyxy_cxcywh b)).
Proof.
  exists (fmt_g (inject_Z c)), (fmt_g ((bx1 b + bx2 b) / 2)),
    (fmt_g ((by1 b + by2 b) / 2)), (fmt_g (bx2 b - bx1 b)), (fmt_g (by2 b - by1 b)).
  split; [repeat constructor; apply fmt_g_numeral |].
  unfold label_line, box_convert_xyxy_cxcywh, Text.join.
  cbn [map fold_right]. rewrite !string_app_assoc. reflexivity.
Qed.

Lemma written_lines_five_fields (pred : prediction) :
  Forall five_fields (written_lines pred).
Proof.
  destruct pred as [| |d]; try constructor. unfold written_lines.
  apply List.Forall_forall. intros l Hl.
  apply in_map_iff in Hl as ([[xyxy conf] c] & <- & _).
  apply label_line_five_fields.
Qed.

Lemma written_lines_line_of (d : detections) :
  Forall2 line_of (zip3 (boxes d) (scores d) (labels d)) (written_lines (Dict d)).
Proof.
  unfold written_lines. rewrite zip3_map_fst, map_map.
  induction (zip3 (boxes d) (scores d) (labels d)) as [|[[xyxy conf] c] l IH];
    simpl; constructor; [apply label_line_line_of | exact IH].
Qed.

(** C3: with [save_txt] set, what an iteration over a prediction adds to
    the text file, whether it comes to its end or raises on the way, is
    one line for each of the first detections, in their order, and for
    all of them when it comes to its end.  Each line is five numbers, each
    followed by a blank.  For detections in the range where the
    arithmetic of [torch] is exact, the numbers of a line are the class
    id of its detection, then the midpoints and the differences of the
    corners of its box, rounded to whole numbers: centre and size of the
    rounded box, in the units of the corners. *)
Theorem overlay_line_is_class_and_cxcywh (args : Args) (path : string)
    (t : Q) (vars : loop_vars) (d : detections) (w : world) :
  save_txt args = true ->
  exists ls : list string,
    tail_text (fst (prediction_step args path t vars (Dict d) w)) (txt_file args path)
    = tail_text w (txt_file args path) ++ Text.join ls
    /\ (length ls <= length (zip3 (boxes d) (scores d) (labels d)))%nat
    /\ (is_ok (snd (prediction_step args path t vars (Dict d) w)) = true ->
        length ls = length (zip3 (boxes d) (scores d) (labels d)))
    /\ Forall five_fields ls
    /\ (in_float_range d = true ->
        Forall2 line_of (take (length ls) (zip3 (boxes d) (scores d) (labels d))) ls).
Proof.
  intros Ht.
  set (W := written_lines (Dict d)).
  pose proof (written_lines_line_of d) as HW. fold W in HW.
  assert (Hlen : length W = length (zip3 (boxes d) (scores d) (labels d)))
    by (symmetry; eapply Forall2_length; exact HW).
  assert (Hk : exists k,
             (k <= length W)%nat
             /\ (is_ok (snd (prediction_step args path t vars (Dict d) w)) = true ->
                 k = length W)
             /\ appended (fs w !! txt_file args path)
                  (fs (fst (prediction_step args path t vars (Dict d) w))
                   !! txt_file args path)
                  (Text.join (take k W))).
  { destruct (prediction_step args path t vars (Dict d) w) as [w' [vars'|e]] eqn:E.
    - exists (length W). split; [lia |]. split; [reflexivity |].
      rewrite take_ge by lia.
      now apply (prediction_step_ok args path t vars vars').
    - destruct (prediction_step_prefix args path t vars (Dict d) w Ht) as (k & Hle & Ha).
      rewrite E in Ha. exists k. split; [exact Hle |]. split; [discriminate | exact Ha]. }
  destruct Hk as (k & Hle & Hok & Ha).
  assert (Hlk : length (take k W) = k) by (rewrite length_take; lia).
  exists (take k W). rewrite Hlk.
  split; [now apply appended_tail_text |].
  split; [lia |].
  split; [intros H; rewrite <- Hlen; now apply Hok |].
  split; [apply Forall_take, written_lines_five_fields |].
  intros _. now apply Forall2_take.
Qed.

(** * The further properties at work *)

Lemma missing_name_aborts_before_any_output_witness :
  prediction_step demo_args demo_path 0.0421%Q demo_vars (Dict nameless_det) demo_world
  = (demo_world, Raise IndexError).
Proof.
  apply (missing_name_aborts_before_any_output demo_args demo_path 0.0421%Q
           demo_vars nameless_det demo_world 5).
  - simpl. right. left. reflexivity.
  - unfold named. simpl. lia.
Defined.

Lemma unreadable_image_never_returns_witness :
  is_ok (snd (overlay_boxes [Dict demo_det] demo_path 0.0421%Q demo_args empty_world))
  = false.
Proof.
  apply (unreadable_image_never_returns [Dict demo_det] demo_path 0.0421%Q
           demo_args empty_world).
  - reflexivity.
  - vm_compute. reflexivity.
Defined.

Lemma saved_image_shows_each_detection_once_witness :
  exists im pm ovs,
    snd (imread demo_path demo_world) = Ok (Some im)
    /\ Forall2 (drawn_as demo_args) (concat (map detections_of [Dict demo_det])) ovs
    /\ fs demo_call_world !! img_file demo_args demo_path
       = Some (File pm (Picture (draw_more ovs im) "")).
Proof.
  apply (saved_image_shows_each_detection_once [Dict demo_det] demo_path 0.0421%Q
           demo_args demo_world demo_call_world demo_call_result).
  - reflexivity.
  - split; [vm_compute; reflexivity |].
    split; [vm_compute; reflexivity | left; vm_compute; reflexivity].
  - vm_compute. reflexivity.
Defined.


Lemma overlay_line_is_class_and_cxcywh_witness :
  exists ls : list string,
    tail_text (fst (prediction_step demo_args demo_path 0.0421%Q demo_vars
                      (Dict demo_det) demo_world))
      (txt_file demo_args demo_path)
    = tail_text demo_world (txt_file demo_args demo_path) ++ Text.join ls
    /\ (length ls <= length (zip3 (boxes demo_det) (scores demo_det) (labels demo_det)))%nat
    /\ (is_ok (snd (prediction_step demo_args demo_path 0.0421%Q demo_vars
                      (Dict demo_det) demo_world)) = true ->
        length ls = length (zip3 (boxes demo_det) (scores demo_det) (labels demo_det)))
    /\ Forall five_fields ls
    /\ (in_float_range demo_det = true ->
        Forall2 line_of
          (take (length ls) (zip3 (boxes demo_det) (scores demo_det) (labels demo_det)))
          ls).
Proof.
  apply (overlay_line_is_class_and_cxcywh demo_args demo_path 0.0421%Q
           demo_vars demo_det demo_world).
  reflexivity.
Defined.

Lemma quiet_overlay_raises_two_errors_witness :
  UnboundLocalError = IndexError \/ UnboundLocalError = UnboundLocalError.
Proof.
  apply (quiet_overlay_raises_two_errors [PyNone] demo_path 0.0421%Q quiet_args
           demo_world UnboundLocalError).
  - reflexivity.
  - reflexivity.
  - vm_compute. reflexivity.
Defined.

Lemma colours_like_names_no_division_by_zero_witness :
  snd (overlay_boxes [Dict demo_det] demo_path 0.0421%Q
         (args_with demo_cli (randint demo_rt) ["person"; "tie"]) demo_world)
  <> Raise ZeroDivisionError.
Proof.
  apply (colours_like_names_no_division_by_zero [Dict demo_det] demo_path 0.0421%Q
           (args_with demo_cli (randint demo_rt) ["person"; "tie"]) demo_world).
  reflexivity.
Defined.

Lemma one_line_printed_per_prediction_witness :
  exists ls,
    stdout (fst (overlay_boxes [PyNone; Dict demo_det] demo_path 0.0421%Q demo_args
                   demo_world))
    = (stdout demo_world ++ ls)%list
    /\ Forall2 (printed_for 0.0421%Q) [PyNone; Dict demo_det] ls.
Proof.
  apply (one_line_printed_per_prediction [PyNone; Dict demo_det] demo_path 0.0421%Q
           demo_args demo_world).
  left. vm_compute. reflexivity.
Defined.



Lemma load_names_returns_clean_names_witness :
  Forall clean ["person"; "tie"; "kite"].
Proof.
  apply (load_names_returns_clean_names crlf_world crlf_world "coco.names").
  vm_compute. reflexivity.
Defined.

Lemma load_names_reads_back_written_names_witness :
  load_names "coco.names" names_world = (names_world, Ok ["person"; ""; "bicycle"]).
Proof.
  apply (load_names_reads_back_written_names names_world "coco.names" rw
           (String Text.LF "") ["person"; ""; "bicycle"]).
  - left. reflexivity.
  - repeat constructor.
  - vm_compute. reflexivity.
  - reflexivity.
Defined.

Lemma load_names_last_line_unterminated_witness :
  load_names "coco.names" crlf_world = (crlf_world, Ok (["person"; "tie"] ++ ["kite"])%list).
Proof.
  apply (load_names_last_line_unterminated crlf_world "coco.names" rw
           (String Text.CR (String Text.LF "")) ["person"; "tie"] "kite").
  - right. left. reflexivity.
  - repeat constructor.
  - split; reflexivity.
  - discriminate.
  - vm_compute. reflexivity.
  - reflexivity.
Defined.

Lemma colour_sits_at_the_position_of_the_name_witness :
  exists i nm,
    (i < length ["person"; "tie"])%nat
    /\ ["person"; "tie"] !! i = Some nm
    /\ py_index (Detect.names (args_with demo_cli (randint demo_rt) ["person"; "tie"])) (-1)
       = Ok nm
    /\ colors (args_with demo_cli (randint demo_rt) ["person"; "tie"])
         !! Z.to_nat (-1 mod Z.of_nat (length (colors (args_with demo_cli (randint demo_rt)
                                                         ["person"; "tie"]))))
       = Some [randint demo_rt (3 * i)%nat; randint demo_rt (3 * i + 1)%nat;
               randint demo_rt (3 * i + 2)%nat].
Proof.
  apply (colour_sits_at_the_position_of_the_name demo_cli (randint demo_rt)
           ["person"; "tie"] (-1)).
  unfold named. simpl. lia.
Defined.

Lemma main_stops_at_unreadable_label_map_witness :
  main demo_rt demo_cli demo_world
  = ({| fs := fs demo_world; stdout := stdout demo_world ++ [show_args demo_rt] |},
     Raise FileNotFoundError).
Proof.
  apply (main_stops_at_unreadable_label_map demo_rt demo_cli demo_world).
  - reflexivity.
  - vm_compute. reflexivity.
Defined.



Lemma summary_ignores_the_order_of_detections_witness :
  stdout demo_world' = stdout (fst shuffled_step).
Proof.
  apply (summary_ignores_the_order_of_detections demo_args demo_path 0.0421%Q
           demo_vars demo_vars demo_vars' shuffled_vars' demo_det shuffled_det
           demo_world demo_world' (fst shuffled_step)).
  - simpl. apply perm_swap.
  - vm_compute. reflexivity.
  - vm_compute. reflexivity.
Defined.

Lemma written_box_is_whole_and_not_negative_witness :
  exists kcx kcy kw kh : Z,
    Forall2 Qeq
      (box_convert_xyxy_cxcywh
         (round_box {| bx1 := 10.4; by1 := 20.5; bx2 := 30.5; by2 := 41.5 |}))
      [kcx # 2; kcy # 2; inject_Z kw; inject_Z kh]
    /\ 0 <= kw /\ 0 <= kh
    /\ 2 * round_half_even 10.4 <= kcx <= 2 * round_half_even 30.5
    /\ 2 * round_half_even 20.5 <= kcy <= 2 * round_half_even 41.5.
Proof.
  apply (written_box_is_whole_and_not_negative
           {| bx1 := 10.4; by1 := 20.5; bx2 := 30.5; by2 := 41.5 |}).
  - unfold Qle. simpl. lia.
  - unfold Qle. simpl. lia.
Defined.
